(** * go-uwsgi: the uwsgi listener and passenger of [uwsgi.go]

    The development follows the current revision of [uwsgi.go] (the one
    whose [Conn] carries [hdrdone], [ready], [readych] and [err], and whose
    [Accept] decodes in a goroutine).  The earlier, synchronous revision of
    [Accept] is embedded in [Module Rev1] where a statement is about it.

    Conventions of the embedding:
    - a Go [string] is a [string] (a sequence of bytes), a [[]byte] is a
      [list byte];
    - a [uint16] is a [Z] in [0, 65536); every [uint16] operation of the
      source is followed by [uint16], its wrap-around;
    - a Go map is a [gmap]; the order in which [range] visits its keys is
      chosen by the runtime, so it is a parameter of every function that
      ranges over a map;
    - indexing and slicing panic as the Go runtime does, in the [go] monad. *)

From Stdlib Require Import ZArith Lia String Ascii DecimalString.
From Stdlib Require Import Init.Byte Strings.Byte.
From stdpp Require Import base list gmap strings.

Local Open Scope Z_scope.

(** ** Go runtime: errors, panics *)

Inductive error : Type :=
| EOF                            (* io.EOF *)
| ErrUnexpectedEOF               (* io.ErrUnexpectedEOF *)
| ErrClosed                      (* use of closed network connection *)
| errors_New (text : string).    (* errors.New(text) *)

Inductive panic_value : Type :=
| IndexOutOfRange (i : Z) (len : Z)
| SliceBoundsOutOfRange (lo hi : Z) (cap : Z)
| PanicString (msg : string).

(** A computation that returns or panics; [NoFuel] is the embedding's own:
    a loop cut off by its bound on the number of rounds. *)
Inductive go (A : Type) : Type :=
| Ret (a : A)
| Panics (p : panic_value)
| NoFuel.
Arguments Ret {A} a.
Arguments Panics {A} p.
Arguments NoFuel {A}.

#[global] Instance go_ret : MRet go := fun A a => Ret a.
#[global] Instance go_bind : MBind go := fun A B f m =>
  match m with
  | Ret a => f a
  | Panics p => Panics p
  | NoFuel => NoFuel
  end.

(** ** Integers and bytes *)

Definition uint16 (z : Z) : Z := z mod 65536.

Definition byte_Z (b : byte) : Z := Z.of_N (Byte.to_N b).

Definition Z_byte (z : Z) : byte :=
  default x00 (Byte.of_N (Z.to_N (z mod 256))).

(** [binary.LittleEndian.Uint16(b)] for [b = []byte{b0, b1}]. *)
Definition LittleEndian_Uint16 (b0 b1 : byte) : Z :=
  Z.lor (byte_Z b0) (Z.shiftl (byte_Z b1) 8).

(** [binary.LittleEndian.PutUint16]: the two bytes of a [uint16]. *)
Definition LittleEndian_PutUint16 (v : Z) : list byte :=
  [Z_byte v; Z_byte (Z.shiftr v 8)].

(** [len] of a slice or of a string, as a Go [int]. *)
Definition len {A} (l : list A) : Z := Z.of_nat (length l).
Definition bytes (s : string) : list byte := list_byte_of_string s.

(** [b[i]]: the runtime panics when [i] is not below [len(b)]. *)
Definition index (b : list byte) (i : Z) : go byte :=
  match b !! Z.to_nat i with
  | Some x => Ret x
  | None => Panics (IndexOutOfRange i (len b))
  end.

(** [b[lo:hi]] for a slice made with [make([]byte, n)], whose capacity is
    its length: the runtime panics unless [lo <= hi <= cap(b)]. *)
Definition slice (b : list byte) (lo hi : Z) : go (list byte) :=
  if (lo <=? hi) && (hi <=? len b)
  then Ret (take (Z.to_nat (hi - lo)) (drop (Z.to_nat lo) b))
  else Panics (SliceBoundsOutOfRange lo hi (len b)).

(** ** The transport: [net.Conn]

    What the peer sends arrives as a sequence of chunks; a [Read] returns
    bytes of the first chunk only (a short read), and after the last chunk
    the stream is at end of file. *)

Record net_Conn : Type := mk_net_Conn {
  pending : list (list byte);
  closed : bool
}.

Definition net_Read (n : nat) (fd : net_Conn) : list byte * option error * net_Conn :=
  if closed fd then ([], Some ErrClosed, fd)
  else match n with
  | O => ([], None, fd)
  | _ =>
    match pending fd with
    | [] => ([], Some EOF, fd)
    | c :: p =>
        (take n c, None,
         mk_net_Conn (match drop n c with [] => p | r => r :: p end) false)
    end
  end.

Definition net_Close (fd : net_Conn) : net_Conn := mk_net_Conn (pending fd) true.

(** [io.ReadFull(fd, buf)] with [len(buf) = need]: the loop of
    [io.ReadAtLeast], which reads until [need] bytes are there or a [Read]
    fails; [got] is what the earlier rounds have read.  With [need = 0] it
    does not read at all. *)
Fixpoint ReadFull_loop (need : nat) (got : list byte) (p : list (list byte))
  : list byte * option error * list (list byte) :=
  match need with
  | O => (got, None, p)
  | _ =>
    match p with
    | [] => (got, Some (match got with [] => EOF | _ => ErrUnexpectedEOF end), [])
    | c :: p' =>
        if decide (length c <= need)%nat
        then ReadFull_loop (need - length c) (got ++ c) p'
        else (got ++ take need c, None, drop need c :: p')
    end
  end.

Definition io_ReadFull (need : nat) (fd : net_Conn) : list byte * option error * net_Conn :=
  match need with
  | O => ([], None, fd)
  | _ =>
    if closed fd then ([], Some ErrClosed, fd)
    else let '(got, e, p) := ReadFull_loop need [] (pending fd) in
         (got, e, mk_net_Conn p false)
  end.

(** ** Strings and numbers of the Go library *)

Definition CRLF : string := String (ascii_of_nat 13) (String (ascii_of_nat 10) EmptyString).

Definition is_digit (a : ascii) : bool :=
  let n := Z.of_N (N_of_ascii a) in (48 <=? n) && (n <=? 57).

Fixpoint parse_digits (s : string) (acc : Z) : option Z :=
  match s with
  | EmptyString => Some acc
  | String a s' =>
      if is_digit a
      then parse_digits s' (10 * acc + (Z.of_N (N_of_ascii a) - 48))
      else None
  end.

(** [strconv.ParseInt(s, 10, 64)], the value it returns (the source drops
    its error): 0 on a syntax error, the nearest [int64] on a range error. *)
Definition strconv_ParseInt (s : string) : Z :=
  match s with
  | EmptyString => 0
  | String a s' =>
      let neg := bool_decide (a = "-"%char) in
      let digits := if bool_decide (a = "+"%char) || neg then s' else s in
      match digits with
      | EmptyString => 0
      | _ =>
        match parse_digits digits 0 with
        | None => 0
        | Some un =>
            let un := Z.min un (2 ^ 64 - 1) in
            let cutoff := 2 ^ 63 in
            if negb neg && (un >=? cutoff) then cutoff - 1
            else if neg && (un >? cutoff) then - cutoff
            else if neg then - un else un
        end
      end
  end.

(** [%d] of [fmt] and [strconv.Itoa]. *)
Definition FormatInt (z : Z) : string := NilZero.string_of_int (Z.to_int z).

(** ** The listener side *)

Definition headerMappings : gmap string string :=
  list_to_map
    [ ("HTTP_HOST", "Host");
      ("CONTENT_TYPE", "Content-Type");
      ("HTTP_ACCEPT", "Accept");
      ("HTTP_ACCEPT_ENCODING", "Accept-Encoding");
      ("HTTP_ACCEPT_LANGUAGE", "Accept-Language");
      ("HTTP_ACCEPT_CHARSET", "Accept-Charset");
      ("HTTP_CONTENT_TYPE", "Content-Type");
      ("HTTP_COOKIE", "Cookie");
      ("HTTP_IF_MATCH", "If-Match");
      ("HTTP_IF_MODIFIED_SINCE", "If-Modified-Since");
      ("HTTP_IF_NONE_MATCH", "If-None-Match");
      ("HTTP_IF_RANGE", "If-Range");
      ("HTTP_RANGE", "Range");
      ("HTTP_REFERER", "Referer");
      ("HTTP_USER_AGENT", "User-Agent");
      ("HTTP_X_REQUESTED_WITH", "Requested-With") ].

(** [Conn].  [reader] is the unread content of the [bytes.Buffer] that
    [Accept] calls [buf] and stores in [c.reader]; [readych] is the content
    of the channel made with [make(chan bool, 1)]. *)
Record Conn : Type := mk_Conn {
  netConn : net_Conn;
  env : gmap string (list string);
  reader : list byte;
  hdrdone : bool;
  ready : bool;
  readych : list bool;
  err : option error
}.

(** The order in which a [range] over a [map[string][]string] visits the
    keys: each key once, in an order of the runtime's choice. *)
Definition range_order : Type := gmap string (list string) -> list string.

Definition range_ok (r : range_order) : Prop :=
  forall m, r m ≡ₚ (map_to_list m).*1.

(** The variables of the record loop of [Accept]. *)
Record vars : Type := mk_vars {
  reqMethod : string;
  reqURI : string;
  reqProtocol : string;
  c_env : gmap string (list string)
}.

Definition no_vars : vars := mk_vars "" "" "" ∅.

(** The tail of one round of the loop: the three captured variables and
    the append to [c.env[k]]. *)
Definition record_var (k v : string) (st : vars) : vars :=
  let st :=
    if decide (k = "REQUEST_METHOD")
    then mk_vars v (reqURI st) (reqProtocol st) (c_env st)
    else if decide (k = "REQUEST_URI")
    then mk_vars (reqMethod st) v (reqProtocol st) (c_env st)
    else if decide (k = "SERVER_PROTOCOL")
    then mk_vars (reqMethod st) (reqURI st) v (c_env st)
    else st in
  let val := match c_env st !! k with Some val => val | None => [] end in
  mk_vars (reqMethod st) (reqURI st) (reqProtocol st)
          (<[k := val ++ [v]]> (c_env st)).

Inductive scanned : Type :=
| Break (i : Z) (st : vars)   (* the loop was left by a [break] *)
| OutOfRange (st : vars).     (* uwsgi vars index out of range *)

(** The [for] loop over the vars of the block.  [fuel] bounds the number of
    rounds; [scan_fuel] below shows that [S (length envbuf)] rounds always
    suffice, so that [Accept_go] is never cut off. *)
Fixpoint scan (fuel : nat) (envbuf : list byte) (envsize : Z) (i : Z) (st : vars)
  : go scanned :=
  match fuel with
  | O => NoFuel
  | S fuel =>
    if uint16 (i + 1) >=? uint16 (len envbuf) then Ret (Break i st) else
    b0 ← index envbuf i;
    b1 ← index envbuf (uint16 (i + 1));
    let kl := LittleEndian_Uint16 b0 b1 in
    let i := uint16 (i + 2) in
    if uint16 (i + kl) >? uint16 (len envbuf) then Ret (OutOfRange st) else
    k ← slice envbuf i (uint16 (i + kl));
    let i := uint16 (i + kl) in
    if uint16 (i + 1) >=? uint16 (len envbuf) then Ret (OutOfRange st) else
    b0 ← index envbuf i;
    b1 ← index envbuf (uint16 (i + 1));
    let vl := LittleEndian_Uint16 b0 b1 in
    let i := uint16 (i + 2) in
    if uint16 (i + vl) >? uint16 (len envbuf) then Ret (OutOfRange st) else
    v ← slice envbuf i (uint16 (i + vl));
    let i := uint16 (i + vl) in
    let st := record_var (string_of_list_byte k) (string_of_list_byte v) st in
    if i >=? envsize then Ret (Break i st) else
    scan fuel envbuf envsize i st
  end.

(** [fmt.Fprintf(buf, ...)] with the formatted text [s]. *)
Definition Fprintf (buf : list byte) (s : string) : list byte := buf ++ bytes s.

(** One round of [for i := range c.env]: the state is [buf] and [cl]. *)
Definition header_round (env : gmap string (list string))
    (st : list byte * Z) (i : string) : go (list byte * Z) :=
  let '(buf, cl) := st in
  let vals := match env !! i with Some vals => vals | None => [] end in
  if decide (i = "CONTENT_LENGTH") then
    match vals with
    | [] => Panics (IndexOutOfRange 0 0)
    | v0 :: _ =>
        let cl := strconv_ParseInt v0 in
        Ret (if cl >? 0
             then Fprintf buf ("Content-Length: " +:+ FormatInt cl +:+ CRLF)
             else buf, cl)
    end
  else
    let hname := match headerMappings !! i with Some h => h | None => i end in
    Ret (fold_left (fun buf v => Fprintf buf (hname +:+ ": " +:+ v +:+ CRLF)) vals buf, cl).

Fixpoint header_rounds (env : gmap string (list string))
    (st : list byte * Z) (keys : list string) : go (list byte * Z) :=
  match keys with
  | [] => Ret st
  | i :: keys => st ← header_round env st i; header_rounds env st keys
  end.

Definition invalid_vars : error :=
  errors_New "Invalid uwsgi request; uwsgi vars index out of range".
Definition invalid_protocol : error :=
  errors_New "Invalid uwsgi request; no protocol specified".

(** [Accept], after the listener has accepted [fd]: the connection it
    returns at once ... *)
Definition Accept (fd : net_Conn) : Conn :=
  mk_Conn fd ∅ [] false false [] None.

Definition fail (c : Conn) (fd : net_Conn) (env : gmap string (list string)) (e : error) : Conn :=
  mk_Conn (net_Close fd) env (reader c) (hdrdone c) (ready c) (readych c) (Some e).

(** [var head [4]byte; fd.Read(head[:])]: what the one [Read] returns,
    whose count and error the source drops, over the zeroes of [head]. *)
Definition read_head (fd : net_Conn) : list byte * net_Conn :=
  let '(hd, _, fd) := net_Read 4 fd in
  (hd ++ replicate (4 - length hd) x00, fd).

(** ... and the goroutine it starts, run to its end on [c]. *)
Definition Accept_go (range_env : range_order) (c : Conn) : go Conn :=
  let '(head, fd) := read_head (netConn c) in
  b0 ← index head 1;
  b1 ← index head 2;
  let envsize := LittleEndian_Uint16 b0 b1 in
  let '(envbuf, e, fd) := io_ReadFull (Z.to_nat envsize) fd in
  match e with
  | Some e => Ret (fail c fd (env c) e)
  | None =>
    r ← scan (S (length envbuf)) envbuf envsize 0 (mk_vars "" "" "" (env c));
    match r with
    | OutOfRange st => Ret (fail c fd (c_env st) invalid_vars)
    | Break _ st =>
      if decide (reqProtocol st = "") then Ret (fail c fd (c_env st) invalid_protocol) else
      let buf := Fprintf (reader c)
        (reqMethod st +:+ " " +:+ reqURI st +:+ " " +:+ reqProtocol st +:+ CRLF) in
      '(buf, cl) ← header_rounds (c_env st) (buf, 0) (range_env (c_env st));
      let buf := buf ++ bytes CRLF in
      Ret (mk_Conn fd (c_env st) buf (hdrdone c) (ready c) (readych c ++ [true]) (err c))
    end
  end.

(** [bytes.Buffer.Read(b)] with [len(b) = n], on the unread content. *)
Definition Buffer_Read (n : nat) (buf : list byte) : list byte * option error * list byte :=
  match buf with
  | [] => ([], match n with O => None | _ => Some EOF end, [])
  | _ => (take n buf, None, drop n buf)
  end.

Inductive read_result : Type :=
| Blocked                                             (* in [<-c.readych] *)
| Returns (b : list byte) (e : option error) (c : Conn).

(** [Conn.Read] waits for the goroutine when [c] is neither ready nor in
    error ... *)
Definition Read_waits (c : Conn) : bool :=
  negb (ready c) && bool_decide (err c = None).

(** ... and this is [Conn.Read(b)], [len(b) = n], from the test of [c.err]
    on. *)
Definition Read_rest (n : nat) (c : Conn) : list byte * option error * Conn :=
  match err c with
  | Some e => ([], Some e, c)
  | None =>
    let '(b, e, c) :=
      if hdrdone c then ([], None, c)
      else
        let '(b, e, buf) := Buffer_Read n (reader c) in
        (b, e, mk_Conn (netConn c) (env c) buf
                 (bool_decide (length b = O) || bool_decide (e <> None))
                 (ready c) (readych c) (err c)) in
    if hdrdone c then
      let '(b, e, fd) := net_Read n (netConn c) in
      (b, e, mk_Conn fd (env c) (reader c) (hdrdone c) (ready c) (readych c) e)
    else (b, e, c)
  end.

Definition received (c : Conn) (ch : list bool) : Conn :=
  mk_Conn (netConn c) (env c) (reader c) (hdrdone c) true ch (err c).

(** [Conn.Read] when nothing else runs: with the channel empty it waits. *)
Definition Read (n : nat) (c : Conn) : read_result :=
  if Read_waits c then
    match readych c with
    | [] => Blocked
    | _ :: ch => let '(b, e, c) := Read_rest n (received c ch) in Returns b e c
    end
  else let '(b, e, c) := Read_rest n c in Returns b e c.

(** A consumer that calls [Read] with buffers of the sizes [ns], one after
    the other, whatever each call returns: the bytes it is given, in order,
    and the connection at the end; [None] when a call never returns. *)
Fixpoint Reads (ns : list nat) (c : Conn) : option (list byte * Conn) :=
  match ns with
  | [] => Some ([], c)
  | n :: ns =>
    match Read n c with
    | Blocked => None
    | Returns b _ c =>
      match Reads ns c with
      | Some (bs, c) => Some (b ++ bs, c)
      | None => None
      end
    end
  end.

(** ** The goroutine of [Accept] and the consumer, interleaved

    The goroutine touches what the consumer reads ([c.err], [c.readych],
    the buffer, the socket) only at its end, so it is one step; a [Read]
    is two: the test of [c.ready] and [c.err], then the rest, which starts
    with the receive when the test said to wait. *)

Inductive consumer : Type :=
| Idle                          (* not in [Read] *)
| Waiting (n : nat)             (* in [Read], at [<-c.readych] *)
| Got (b : list byte) (e : option error).   (* [Read] has returned *)

Record system : Type := mk_system {
  conn : Conn;
  decoding : bool;              (* the goroutine has not finished *)
  cons : consumer
}.

Inductive step (range_env : range_order) : system -> system -> Prop :=
| step_decode c c' k :
    Accept_go range_env c = Ret c' ->
    step range_env (mk_system c true k) (mk_system c' false k)
| step_wait c d n :
    Read_waits c = true ->
    step range_env (mk_system c d Idle) (mk_system c d (Waiting n))
| step_receive c d n v ch b e c' :
    readych c = v :: ch ->
    Read_rest n (received c ch) = (b, e, c') ->
    step range_env (mk_system c d (Waiting n)) (mk_system c' d (Got b e))
| step_read c d n b e c' :
    Read_waits c = false ->
    Read_rest n c = (b, e, c') ->
    step range_env (mk_system c d Idle) (mk_system c' d (Got b e))
| step_again c d b e :
    step range_env (mk_system c d (Got b e)) (mk_system c d Idle).

(** ** The passenger side *)

Record Request : Type := mk_Request {
  Method : string;
  RequestURI : string;
  Proto : string;
  Host : string;
  RemoteAddr : string;
  ContentLength : Z;
  URL_Path : string;
  URL_RawQuery : string;
  Header : gmap string (list string);
  Body : list (list byte)       (* the chunks that reading the body gives *)
}.

Record Response : Type := mk_Response {
  res_Header : gmap string (list string);
  res_Body : list (list byte)
}.

(** The [http.ResponseWriter]: its header map and what was written. *)
Record ResponseWriter : Type := mk_ResponseWriter {
  w_Header : gmap string (list string);
  w_written : list (list byte)
}.

Record Passenger : Type := mk_Passenger { Net : string; Addr : string }.

(** What [ServeHTTP] runs against: [net.Dial], which fails with an error or
    connects to a peer; the peer, from the writes it receives to what
    [http.ReadResponse] makes of its answer; the canonical form of a header
    key, which [Header.Del] and [Header.Add] apply; and the orders of the
    four [range] statements. *)
Record World : Type := mk_World {
  net_Dial : string -> string -> string + (list (list byte) -> string + Response);
  CanonicalMIMEHeaderKey : string -> string;
  range_reqHeader : range_order;
  range_size : range_order;
  range_write : range_order;
  range_resHeader : range_order
}.

(** [trailingPort], the regular expression [:([0-9]+)$]: the digits after
    the last colon, when there are some and nothing else follows. *)
Fixpoint all_digits (s : string) : bool :=
  match s with
  | EmptyString => true
  | String a s => is_digit a && all_digits s
  end.

Fixpoint trailingPort (s : string) : option string :=
  match s with
  | EmptyString => None
  | String a s' =>
      if bool_decide (a = ":"%char) && all_digits s' && negb (bool_decide (s' = ""))
      then Some s'
      else trailingPort s'
  end.

(** [strings.ToUpper(strings.Replace(k, "-", "_", -1))] on the bytes of an
    ASCII key. *)
Definition upper_underscore (a : ascii) : ascii :=
  let n := N_of_ascii a in
  if bool_decide (a = "-"%char) then "_"%char
  else if ((97 <=? n) && (n <=? 122))%N then ascii_of_N (n - 32)
  else a.

Fixpoint ToUpper_Replace (k : string) : string :=
  match k with
  | EmptyString => EmptyString
  | String a k => String (upper_underscore a) (ToUpper_Replace k)
  end.

(** The map [header] that [ServeHTTP] builds from the request. *)
Definition build_header (W : World) (req : Request) : gmap string (list string) :=
  let port := match trailingPort (Host req) with Some p => p | None => "80" end in
  let header : gmap string (list string) := ∅ in
  let header := <["REQUEST_METHOD" := [Method req]]> header in
  let header := <["REQUEST_URI" := [RequestURI req]]> header in
  let header := <["CONTENT_LENGTH" := [FormatInt (ContentLength req)]]> header in
  let header := <["SERVER_PROTOCOL" := [Proto req]]> header in
  let header := <["SERVER_NAME" := [Host req]]> header in
  let header := <["SERVER_ADDR" := [RemoteAddr req]]> header in
  let header := <["SERVER_PORT" := [port]]> header in
  let header := <["REMOTE_HOST" := [RemoteAddr req]]> header in
  let header := <["REMOTE_ADDR" := [RemoteAddr req]]> header in
  let header := <["SCRIPT_NAME" := [URL_Path req]]> header in
  let header := <["PATH_INFO" := [URL_Path req]]> header in
  let header := <["QUERY_STRING" := [URL_RawQuery req]]> header in
  let ctype := match Header req !! "Content-Type" with
               | Some (v :: _) => v
               | _ => ""
               end in
  let header := if decide (ctype = "") then header
                else <["CONTENT_TYPE" := [ctype]]> header in
  fold_left
    (fun header k =>
       match header !! k with
       | Some _ => header
       | None =>
           let v := match Header req !! k with Some v => v | None => [] end in
           <["HTTP_" +:+ ToUpper_Replace k := v]> header
       end)
    (range_reqHeader W (Header req)) header.

(** The first loop over [header]: [size], a [uint16]. *)
Definition frame_size (keys : list string) (header : gmap string (list string)) : Z :=
  fold_left
    (fun size k =>
       fold_left
         (fun size vv =>
            let size := uint16 (size + uint16 (uint16 (len (bytes k)) + 2)) in
            uint16 (size + uint16 (uint16 (len (bytes vv)) + 2)))
         (match header !! k with Some v => v | None => [] end) size)
    keys 0.

(** The second loop over [header]: the four writes of each var. *)
Definition frame_vars (keys : list string) (header : gmap string (list string))
  : list (list byte) :=
  k ← keys;
  vv ← match header !! k with Some v => v | None => [] end;
  [ LittleEndian_PutUint16 (uint16 (len (bytes k))); bytes k;
    LittleEndian_PutUint16 (uint16 (len (bytes vv))); bytes vv ].

(** What [ServeHTTP] writes to the connection for the map [header] and the
    body: the four bytes of [hsize], the vars, the body. *)
Definition frame_writes (W : World) (header : gmap string (list string))
    (body : list (list byte)) : list (list byte) :=
  let size := frame_size (range_size W header) header in
  let hsize := [x00] ++ LittleEndian_PutUint16 size ++ [x00] in
  hsize :: frame_vars (range_write W header) header ++ body.

Definition ServeHTTP (W : World) (p : Passenger) (w : ResponseWriter) (req : Request)
  : go ResponseWriter :=
  match net_Dial W (Net p) (Addr p) with
  | inl e => Panics (PanicString e)
  | inr peer =>
    let header := build_header W req in
    let sent := frame_writes W header (Body req) in
    match peer sent with
    | inl e => Panics (PanicString e)
    | inr res =>
      let h :=
        fold_left
          (fun h k =>
             let v := match res_Header res !! k with Some v => v | None => [] end in
             let k := CanonicalMIMEHeaderKey W k in
             fold_left
               (fun h vv => <[k := match h !! k with Some l => l | None => [] end ++ [vv]]> h)
               v (delete k h))
          (range_resHeader W (res_Header res)) (w_Header w) in
      Ret (mk_ResponseWriter h (w_written w ++ res_Body res))
    end
  end.

(** ** Frames, for the statements

    The bytes of one var as the wire has it, and of a block of vars. *)
Definition record_bytes (k v : string) : list byte :=
  LittleEndian_PutUint16 (uint16 (len (bytes k))) ++ bytes k ++
  LittleEndian_PutUint16 (uint16 (len (bytes v))) ++ bytes v.

Definition block_of (recs : list (string * string)) : list byte :=
  kv ← recs; record_bytes kv.1 kv.2.

(** A frame: [modifier1], the size of the block, [modifier2], the block. *)
Definition frame_of (m1 m2 : byte) (recs : list (string * string)) : list byte :=
  [m1] ++ LittleEndian_PutUint16 (len (block_of recs)) ++ [m2] ++ block_of recs.

(** What the record loop does to its variables over the vars [recs]. *)
Definition record_vars (recs : list (string * string)) (st : vars) : vars :=
  fold_left (fun st kv => record_var kv.1 kv.2 st) recs st.

(** The last value of the variable [k] in a decoded [env]. *)
Definition last_value (env : gmap string (list string)) (k : string) : string :=
  match env !! k with
  | Some vals => match last vals with Some v => v | None => "" end
  | None => ""
  end.

(** The vars of the test [TestBasic], in the order of its map literal, and
    the body of its first request. *)
Definition test_vars : list (string * string) :=
  [ ("HOST", "localhost"); ("REQUEST_METHOD", "POST"); ("REQUEST_URI", "/foo");
    ("CONTENT_LENGTH", "8"); ("SERVER_PROTOCOL", "HTTP/1.1");
    ("HTTP_CONTENT_TYPE", "application/x-www-form-urlencoded");
    ("HTTP_USER_AGENT", "go") ].

Definition test_frame : list byte := frame_of x00 x00 test_vars.
Definition test_body : list byte := bytes "foo=bar1".

Definition keys_sorted : range_order := fun m => (map_to_list m).*1.

(** What the loop keeps:

    The three captured variables are the last values of their keys in
    [c.env], and no key of [c.env] has an empty list of values. *)
Definition captured (st : vars) : Prop :=
  reqMethod st = last_value (c_env st) "REQUEST_METHOD" /\
  reqURI st = last_value (c_env st) "REQUEST_URI" /\
  reqProtocol st = last_value (c_env st) "SERVER_PROTOCOL".

Definition values_nonempty (env : gmap string (list string)) : Prop :=
  forall k vals, env !! k = Some vals -> vals <> [].

Definition request_line (st : vars) : string :=
  reqMethod st +:+ " " +:+ reqURI st +:+ " " +:+ reqProtocol st +:+ CRLF.

(** A stream whose first [Read] gives the four bytes of the header at
    least. *)
Definition head_in_first_chunk (p : list (list byte)) : Prop :=
  exists c p', p = c :: p' /\ (4 <= length c)%nat.


(** The header lines that the round of [for i := range c.env] for the key
    [i] writes, one string for each [Fprintf]. *)
Definition header_line (hname v : string) : string := hname +:+ ": " +:+ v +:+ CRLF.

Definition key_lines (env : gmap string (list string)) (i : string) : list string :=
  let vals := match env !! i with Some vals => vals | None => [] end in
  if decide (i = "CONTENT_LENGTH") then
    match vals with
    | [] => []
    | v0 :: _ =>
        if strconv_ParseInt v0 >? 0
        then ["Content-Length: " +:+ FormatInt (strconv_ParseInt v0) +:+ CRLF]
        else []
    end
  else
    header_line (match headerMappings !! i with Some h => h | None => i end) <$> vals.

Definition lines_bytes (lines : list string) : list byte := l ← lines; bytes l.

(** The vars that the loops of [ServeHTTP] over [header] visit, for the
    keys in the order [keys]. *)
Definition header_vars (keys : list string) (header : gmap string (list string))
  : list (string * string) :=
  k ← keys; pair k <$> match header !! k with Some v => v | None => [] end.

(** The length of the block that holds the vars of [header]. *)
Definition frame_length (header : gmap string (list string)) : Z :=
  len (block_of (header_vars (map_to_list header).*1 header)).

(** Streams and worlds for the examples: the runtime visits the keys of a
    map in the order of [map_to_list], or in the reverse order. *)
Definition keys_reversed : range_order := fun m => reverse (map_to_list m).*1.

Definition test_conn : net_Conn := mk_net_Conn [test_frame ++ test_body] false.

Definition test_World : World :=
  mk_World (fun _ _ => inl "dial tcp 127.0.0.1: connection refused")
           (fun k => k) keys_sorted keys_reversed keys_sorted keys_sorted.

Definition cookie_header : gmap string (list string) :=
  <["SERVER_PROTOCOL" := ["HTTP/1.1"]]> (<["HTTP_COOKIE" := ["a=1"; "b=2"]]> ∅).

(** What a connection still has for its consumer: the unread buffer, then
    the bytes of the transport. *)
Definition to_deliver (c : Conn) : list byte := reader c ++ concat (pending (netConn c)).

(** Once [hdrdone] is set the buffer is skipped; it is set with the buffer
    empty as long as no [Read] has an empty [b]. *)
Definition buffer_served (c : Conn) : Prop := hdrdone c = true -> reader c = [].

(** A [Read] finds the connection ready, in error, or the signal in the
    channel. *)
Definition signalled (c : Conn) : Prop :=
  ready c = true \/ readych c <> [] \/ err c <> None.

Definition test_request : Request :=
  mk_Request "POST" "/foo" "HTTP/1.1" "example.com:8443" "127.0.0.1:4000" 8
             "/foo" "" (<["Content-Type" := ["text/plain"]]> ∅) [bytes "foo=bar1"].

Definition Passenger_test : Passenger := mk_Passenger "tcp" "127.0.0.1".

(** ** The earlier revision of [Accept]

    The revision of [uwsgi.go] whose [Conn] is [{env, reader, writer}]
    decodes the frame before [Accept] returns, returns the framing errors
    themselves, and differs from the current one in three places: it
    overwrites [reqProtocol] with ["HTTP/1.0"] before it writes the request
    line, it copies [cl] bytes of the body into the buffer, and its
    [Conn.Read] reads from the buffer only.  Its record loop is the loop
    [scan] above, with [return nil, err] for [c.err = err; return]. *)
Module Rev1.

Definition headerMappings : gmap string string :=
  list_to_map
    [ ("HTTP_HOST", "Host");
      ("CONTENT_TYPE", "Content-Type");
      ("HTTP_ACCEPT", "Accept");
      ("HTTP_ACCEPT_ENCODING", "Accept-Encoding");
      ("HTTP_ACCEPT_LANGUAGE", "Accept-Language");
      ("HTTP_ACCEPT_CHARSET", "Accept-Charset");
      ("HTTP_CONTENT_TYPE", "Content-Type");
      ("HTTP_COOKIE", "Cookie");
      ("HTTP_CONNECTION", "Connection");
      ("HTTP_IF_MATCH", "If-Match");
      ("HTTP_IF_MODIFIED_SINCE", "If-Modified-Since");
      ("HTTP_IF_NONE_MATCH", "If-None-Match");
      ("HTTP_IF_RANGE", "If-Range");
      ("HTTP_RANGE", "Range");
      ("HTTP_REFERER", "Referer");
      ("HTTP_USER_AGENT", "User-Agent");
      ("HTTP_X_REQUESTED_WITH", "Requested-With") ].

Record Conn : Type := mk_Conn {
  env : gmap string (list string);
  reader : list byte;
  writer : net_Conn
}.

Definition header_round (env : gmap string (list string))
    (st : list byte * Z) (i : string) : go (list byte * Z) :=
  let '(buf, cl) := st in
  let vals := match env !! i with Some vals => vals | None => [] end in
  if decide (i = "CONTENT_LENGTH") then
    match vals with
    | [] => Panics (IndexOutOfRange 0 0)
    | v0 :: _ =>
        let cl := strconv_ParseInt v0 in
        Ret (if cl >? 0
             then Fprintf buf ("Content-Length: " +:+ FormatInt cl +:+ CRLF)
             else buf, cl)
    end
  else
    let hname := match headerMappings !! i with Some h => h | None => i end in
    Ret (fold_left (fun buf v => Fprintf buf (hname +:+ ": " +:+ v +:+ CRLF)) vals buf, cl).

Fixpoint header_rounds (env : gmap string (list string))
    (st : list byte * Z) (keys : list string) : go (list byte * Z) :=
  match keys with
  | [] => Ret st
  | i :: keys => st ← header_round env st i; header_rounds env st keys
  end.

(** [io.CopyN(buf, fd, n)], whose count and error the source drops: the
    [n] next bytes of [fd], or all of them when there are fewer. *)
Definition io_CopyN (buf : list byte) (fd : net_Conn) (n : Z) : list byte * net_Conn :=
  if closed fd then (buf, fd)
  else let '(got, _, p) := ReadFull_loop (Z.to_nat n) [] (pending fd) in
       (buf ++ got, mk_net_Conn p false).

(** [Accept], once the listener has accepted [fd]: the error it returns,
    with [fd] closed, or the connection. *)
Definition Accept (range_env : range_order) (fd : net_Conn)
  : go (error * net_Conn + Conn) :=
  let '(head, fd) := read_head fd in
  b0 ← index head 1;
  b1 ← index head 2;
  let envsize := LittleEndian_Uint16 b0 b1 in
  let '(envbuf, e, fd) := io_ReadFull (Z.to_nat envsize) fd in
  match e with
  | Some e => Ret (inl (e, net_Close fd))
  | None =>
    r ← scan (S (length envbuf)) envbuf envsize 0 no_vars;
    match r with
    | OutOfRange _ => Ret (inl (invalid_vars, net_Close fd))
    | Break _ st =>
      if decide (reqProtocol st = "") then Ret (inl (invalid_protocol, net_Close fd)) else
      let reqProtocol := "HTTP/1.0" in
      let buf := Fprintf []
        (reqMethod st +:+ " " +:+ reqURI st +:+ " " +:+ reqProtocol +:+ CRLF) in
      '(buf, cl) ← header_rounds (c_env st) (buf, 0) (range_env (c_env st));
      let buf := buf ++ bytes CRLF in
      let '(buf, fd) := if cl >? 0 then io_CopyN buf fd cl else (buf, fd) in
      Ret (inr (mk_Conn (c_env st) buf fd))
    end
  end.

Definition Read (n : nat) (c : Conn) : list byte * option error * Conn :=
  let '(b, e, buf) := Buffer_Read n (reader c) in
  (b, e, mk_Conn (env c) buf (writer c)).

End Rev1.

(** ** Further definitions, for the properties beyond the claims *)

(** The goroutine of [Accept] from the end of the record loop on: [fd] is
    the connection after the block has been read. *)
Definition Accept_finish (range_env : range_order) (fd : net_Conn) (r : scanned) : go Conn :=
  match r with
  | OutOfRange st => Ret (mk_Conn (net_Close fd) (c_env st) [] false false [] (Some invalid_vars))
  | Break _ st =>
    if decide (reqProtocol st = "")
    then Ret (mk_Conn (net_Close fd) (c_env st) [] false false [] (Some invalid_protocol))
    else
      '(buf, cl) ← header_rounds (c_env st) (bytes (request_line st), 0)
                     (range_env (c_env st));
      Ret (mk_Conn fd (c_env st) (buf ++ bytes CRLF) false false [true] None)
  end.

(** The values of the variable [k] among the vars [recs], in their order. *)
Definition values_of (k : string) (recs : list (string * string)) : list string :=
  (filter (fun kv => kv.1 = k) recs).*2.

(** [net.Conn.Write(b)]: [out] is what the peer has been sent. *)
Definition net_Write (b : list byte) (fd : net_Conn) (out : list (list byte))
  : nat * option error * list (list byte) :=
  if closed fd then (O, Some ErrClosed, out) else (length b, None, out ++ [b]).

(** [Conn.Write]. *)
Definition Write (b : list byte) (c : Conn) (out : list (list byte))
  : nat * option error * list (list byte) :=
  match err c with
  | Some e => (O, Some e, out)
  | None => net_Write b (netConn c) out
  end.

(** A connection at the end of its stream, for the examples. *)
Definition drained_conn : Conn :=
  mk_Conn (mk_net_Conn [] false) ∅ [] false true [] None.

(** The connection that the goroutine leaves on the frame of the test. *)
Definition test_decoded : Conn :=
  match Accept_go keys_sorted (Accept test_conn) with
  | Ret c => c
  | _ => Accept test_conn
  end.

(** The map [header] of [ServeHTTP] before the loop over [req.Header], and
    one round of that loop. *)
Definition fixed_header (req : Request) : gmap string (list string) :=
  let port := match trailingPort (Host req) with Some p => p | None => "80" end in
  let header : gmap string (list string) := ∅ in
  let header := <["REQUEST_METHOD" := [Method req]]> header in
  let header := <["REQUEST_URI" := [RequestURI req]]> header in
  let header := <["CONTENT_LENGTH" := [FormatInt (ContentLength req)]]> header in
  let header := <["SERVER_PROTOCOL" := [Proto req]]> header in
  let header := <["SERVER_NAME" := [Host req]]> header in
  let header := <["SERVER_ADDR" := [RemoteAddr req]]> header in
  let header := <["SERVER_PORT" := [port]]> header in
  let header := <["REMOTE_HOST" := [RemoteAddr req]]> header in
  let header := <["REMOTE_ADDR" := [RemoteAddr req]]> header in
  let header := <["SCRIPT_NAME" := [URL_Path req]]> header in
  let header := <["PATH_INFO" := [URL_Path req]]> header in
  let header := <["QUERY_STRING" := [URL_RawQuery req]]> header in
  let ctype := match Header req !! "Content-Type" with
               | Some (v :: _) => v
               | _ => ""
               end in
  if decide (ctype = "") then header
  else <["CONTENT_TYPE" := [ctype]]> header.

Definition add_http_var (reqHeader : gmap string (list string))
    (header : gmap string (list string)) (k : string) : gmap string (list string) :=
  match header !! k with
  | Some _ => header
  | None =>
      let v := match reqHeader !! k with Some v => v | None => [] end in
      <["HTTP_" +:+ ToUpper_Replace k := v]> header
  end.

(** A request with two headers, for the examples, and a peer that answers. *)
Definition two_headers : gmap string (list string) :=
  <["Accept" := ["text/html"; "text/plain"]]> (<["User-Agent" := ["go"]]> ∅).

Definition headers_request : Request :=
  mk_Request "GET" "/index?x=1" "HTTP/1.1" "example.com" "127.0.0.1:4000" 0
             "/index" "x=1" two_headers [].

Definition test_response : Response :=
  mk_Response (<["Content-Type" := ["text/html"]]> (<["Set-Cookie" := ["a=1"; "b=2"]]> ∅))
              [bytes "hello"].

Definition answering_World : World :=
  mk_World (fun _ _ => inr (fun _ => inr test_response))
           (fun k => k) keys_sorted keys_reversed keys_sorted keys_reversed.

Definition test_writer : ResponseWriter :=
  mk_ResponseWriter (<["Content-Type" := ["text/plain"]]> (<["X-Served-By" := ["front"]]> ∅)) [].

(** One round of the loop of [ServeHTTP] over [res.Header]: [Del], then an
    [Add] for each value. *)
Definition copy_header (W : World) (res : Response)
    (h : gmap string (list string)) (k : string) : gmap string (list string) :=
  let v := match res_Header res !! k with Some v => v | None => [] end in
  let k := CanonicalMIMEHeaderKey W k in
  fold_left
    (fun h vv => <[k := match h !! k with Some l => l | None => [] end ++ [vv]]> h)
    v (delete k h).

(** No two neighbouring bytes of the block, read as a length, reach 65535
    when added to the length of the block: no sum of the record loop can
    wrap around. *)
Definition no_overflow (envbuf : list byte) : Prop :=
  Forall (fun bb : byte * byte => LittleEndian_Uint16 bb.1 bb.2 + len envbuf < 65535)
         (zip envbuf (tail envbuf)).

(** A request with a content type, for the examples. *)
Definition typed_request : Request :=
  mk_Request "POST" "/form" "HTTP/1.1" "example.com" "127.0.0.1:4000" 3
             "/form" "" (<["Content-Type" := ["text/plain"]]> ∅) [bytes "a=1"].

(** The [cl] that the loop over [c.env] ends with. *)
Definition content_length (env : gmap string (list string)) : Z :=
  match env !! "CONTENT_LENGTH" with
  | Some (v0 :: _) => strconv_ParseInt v0
  | _ => 0
  end.

(** A frame without the variable [SERVER_PROTOCOL]: a var named [A] whose
    value is the text SERVER_PROTOCOL, and a var named [HTTP/1.1] with an
    empty value ... *)
Definition shifted_vars : list (string * string) :=
  [("A", "SERVER_PROTOCOL"); ("HTTP/1.1", "")].

Definition shifted_frame : list byte := frame_of x00 x00 shifted_vars.

(** ... on a transport whose first [Read] returns two bytes of the header,
    as a [net.Conn] may. *)
Definition short_head_conn : net_Conn :=
  mk_net_Conn [take 2 shifted_frame; drop 2 shifted_frame] false.
(** * Properties *)

(** ** Bytes and [uint16] *)

Lemma byte_Z_range (b : byte) : 0 <= byte_Z b < 256.
Proof.
  unfold byte_Z. pose proof (Byte.to_N_bounded b). lia.
Qed.

Lemma byte_Z_Z_byte (z : Z) : byte_Z (Z_byte z) = z mod 256.
Proof.
  unfold Z_byte, byte_Z.
  assert (Hr : 0 <= z mod 256 < 256) by (apply Z.mod_pos_bound; lia).
  destruct (Byte.of_N (Z.to_N (z mod 256))) as [b|] eqn:Hb.
  - apply Byte.to_of_N in Hb. simpl. rewrite Hb. lia.
  - apply Byte.of_N_None_iff in Hb. lia.
Qed.

Lemma Z_byte_byte_Z (b : byte) : Z_byte (byte_Z b) = b.
Proof.
  unfold Z_byte, byte_Z. pose proof (Byte.to_N_bounded b).
  rewrite Z.mod_small by lia. rewrite N2Z.id, Byte.of_to_N. reflexivity.
Qed.

Lemma lor_shiftl_8 (a b : Z) : 0 <= a < 256 -> 0 <= b -> Z.lor a (Z.shiftl b 8) = a + 256 * b.
Proof.
  intros Ha Hb. rewrite <- Z.add_nocarry_lor.
  - rewrite Z.shiftl_mul_pow2 by lia. change (2 ^ 8) with 256. lia.
  - apply Z.bits_inj'. intros n Hn. rewrite Z.land_spec, Z.bits_0.
    destruct (Z_lt_dec n 8) as [Hlt|Hge].
    + rewrite (Z.shiftl_spec_low b 8 n) by lia. apply andb_false_r.
    + assert (Hbit : Z.testbit a n = false).
      { apply (proj1 (Z.bounded_iff_bits_nonneg 8 a ltac:(lia) ltac:(lia))); [|lia].
        change (2 ^ 8) with 256. lia. }
      rewrite Hbit. reflexivity.
Qed.

Lemma Uint16_eq (b0 b1 : byte) : LittleEndian_Uint16 b0 b1 = byte_Z b0 + 256 * byte_Z b1.
Proof.
  unfold LittleEndian_Uint16. pose proof (byte_Z_range b0). pose proof (byte_Z_range b1).
  apply lor_shiftl_8; lia.
Qed.

Lemma Uint16_range (b0 b1 : byte) : 0 <= LittleEndian_Uint16 b0 b1 < 65536.
Proof.
  rewrite Uint16_eq. pose proof (byte_Z_range b0). pose proof (byte_Z_range b1). lia.
Qed.

Lemma Uint16_PutUint16 (v : Z) :
  0 <= v < 65536 ->
  LittleEndian_Uint16 (Z_byte v) (Z_byte (Z.shiftr v 8)) = v.
Proof.
  intros Hv. rewrite Uint16_eq, !byte_Z_Z_byte.
  rewrite Z.shiftr_div_pow2 by lia. change (2 ^ 8) with 256.
  rewrite (Z.mod_small (v / 256)).
  - pose proof (Z.div_mod v 256 ltac:(lia)). lia.
  - split; [apply Z.div_pos; lia | apply Z.div_lt_upper_bound; lia].
Qed.

Lemma uint16_small (z : Z) : 0 <= z < 65536 -> uint16 z = z.
Proof. intros. unfold uint16. apply Z.mod_small. lia. Qed.

Lemma uint16_range (z : Z) : 0 <= uint16 z < 65536.
Proof. unfold uint16. apply Z.mod_pos_bound. lia. Qed.

Lemma len_app {A} (l1 l2 : list A) : len (l1 ++ l2) = len l1 + len l2.
Proof. unfold len. rewrite length_app. lia. Qed.

Lemma len_nonneg {A} (l : list A) : 0 <= len l.
Proof. unfold len. lia. Qed.

(** ** [io.ReadFull] *)

Lemma ReadFull_loop_enough (need : nat) (got : list byte) (p : list (list byte)) :
  (need <= length (concat p))%nat ->
  exists p', ReadFull_loop need got p = (got ++ take need (concat p), None, p')
             /\ concat p' = drop need (concat p).
Proof.
  revert need got. induction p as [|c p IH]; intros need got Hlen.
  - simpl in Hlen. assert (need = O) by lia. subst. simpl.
    exists []. rewrite app_nil_r. auto.
  - destruct need as [|n].
    + exists (c :: p). simpl. rewrite app_nil_r. auto.
    + cbn [ReadFull_loop]. destruct (decide (length c <= S n)%nat) as [Hle|Hgt].
      * simpl in Hlen. rewrite length_app in Hlen.
        destruct (IH (S n - length c)%nat (got ++ c) ltac:(lia)) as (p' & Hr & Hc).
        exists p'. rewrite Hr. split.
        -- simpl concat. rewrite take_app_ge by lia. rewrite <- app_assoc. reflexivity.
        -- simpl concat. rewrite drop_app_ge by lia. exact Hc.
      * exists (drop (S n) c :: p). split.
        -- simpl concat. rewrite take_app_le by lia. reflexivity.
        -- simpl concat. rewrite drop_app_le by lia. reflexivity.
Qed.

Lemma ReadFull_loop_short (need : nat) (got : list byte) (p : list (list byte)) :
  (length (concat p) < need)%nat ->
  exists got' e, ReadFull_loop need got p = (got', Some e, []).
Proof.
  revert need got. induction p as [|c p IH]; intros need got Hlen.
  - destruct need; [simpl in Hlen; lia|]. simpl. eauto.
  - destruct need as [|n]; [lia|].
    cbn [ReadFull_loop]. simpl in Hlen. rewrite length_app in Hlen.
    destruct (decide (length c <= S n)%nat) as [Hle|Hgt]; [|lia].
    apply IH. lia.
Qed.

Lemma ReadFull_loop_ok (need : nat) (got : list byte) (p : list (list byte)) got' p' :
  ReadFull_loop need got p = (got', None, p') ->
  got' = got ++ take need (concat p) /\ concat p' = drop need (concat p)
  /\ (need <= length (concat p))%nat.
Proof.
  intros H. destruct (decide (need <= length (concat p))%nat) as [Hle|Hgt].
  - destruct (ReadFull_loop_enough need got p Hle) as (p'' & Hr & Hc).
    rewrite Hr in H. inversion H; subst. auto.
  - destruct (ReadFull_loop_short need got p ltac:(lia)) as (g & e & Hr).
    rewrite Hr in H. discriminate.
Qed.

(** ** Indexing and slicing inside a buffer *)

Lemma bind_Ret {A B} (a : A) (f : A -> go B) : (Ret a ≫= f) = f a.
Proof. reflexivity. Qed.

Lemma index_middle (pre : list byte) (x : byte) (suf : list byte) (i : Z) :
  i = len pre -> index (pre ++ x :: suf) i = Ret x.
Proof.
  intros ->. unfold index, len. rewrite Nat2Z.id, list_lookup_middle by reflexivity.
  reflexivity.
Qed.

Lemma slice_middle (pre mid suf : list byte) (lo hi : Z) :
  lo = len pre -> hi = len pre + len mid ->
  slice (pre ++ mid ++ suf) lo hi = Ret mid.
Proof.
  intros -> ->. unfold slice.
  assert (Hc : (len pre <=? len pre + len mid) && (len pre + len mid <=? len (pre ++ mid ++ suf)) = true).
  { rewrite !len_app. pose proof (len_nonneg mid). pose proof (len_nonneg suf).
    apply andb_true_iff. split; apply Z.leb_le; lia. }
  rewrite Hc. f_equal. unfold len.
  rewrite Nat2Z.id, drop_app_length.
  replace (Z.to_nat (Z.of_nat (length pre) + Z.of_nat (length mid) - Z.of_nat (length pre)))
    with (length mid) by lia.
  apply take_app_length.
Qed.

(** A slice whose upper bound has wrapped around always panics: the sum
    modulo 65536 is below the lower bound. *)
Lemma slice_wrapped (b : list byte) (lo n : Z) :
  0 <= lo < 65536 -> 0 <= n < 65536 -> 65536 <= lo + n ->
  slice b lo (uint16 (lo + n))
  = Panics (SliceBoundsOutOfRange lo (lo + n - 65536) (len b)).
Proof.
  intros Hlo Hn Hw.
  assert (Hu : uint16 (lo + n) = lo + n - 65536).
  { unfold uint16. symmetry. apply (Z.mod_unique_pos _ _ 1); lia. }
  rewrite Hu. unfold slice.
  replace (lo <=? lo + n - 65536) with false by (symmetry; apply Z.leb_gt; lia).
  reflexivity.
Qed.

Ltac list_assoc :=
  repeat (rewrite <- ?app_assoc; simpl); reflexivity.

Ltac len_solve :=
  rewrite ?len_app; unfold len; rewrite ?length_app; simpl length; lia.

Lemma scan_S fuel envbuf envsize i st :
  scan (S fuel) envbuf envsize i st =
    if uint16 (i + 1) >=? uint16 (len envbuf) then Ret (Break i st) else
    b0 ← index envbuf i;
    b1 ← index envbuf (uint16 (i + 1));
    let kl := LittleEndian_Uint16 b0 b1 in
    let i := uint16 (i + 2) in
    if uint16 (i + kl) >? uint16 (len envbuf) then Ret (OutOfRange st) else
    k ← slice envbuf i (uint16 (i + kl));
    let i := uint16 (i + kl) in
    if uint16 (i + 1) >=? uint16 (len envbuf) then Ret (OutOfRange st) else
    b0 ← index envbuf i;
    b1 ← index envbuf (uint16 (i + 1));
    let vl := LittleEndian_Uint16 b0 b1 in
    let i := uint16 (i + 2) in
    if uint16 (i + vl) >? uint16 (len envbuf) then Ret (OutOfRange st) else
    v ← slice envbuf i (uint16 (i + vl));
    let i := uint16 (i + vl) in
    let st := record_var (string_of_list_byte k) (string_of_list_byte v) st in
    if i >=? envsize then Ret (Break i st) else
    scan fuel envbuf envsize i st.
Proof. reflexivity. Qed.

Lemma geb_false (a b : Z) : a < b -> (a >=? b) = false.
Proof. intros. rewrite Z.geb_leb. apply Z.leb_gt. lia. Qed.

Lemma gtb_false (a b : Z) : a <= b -> (a >? b) = false.
Proof. intros. rewrite Z.gtb_ltb. apply Z.ltb_ge. lia. Qed.

Lemma len_record_bytes k v :
  len (record_bytes k v) = 4 + len (bytes k) + len (bytes v).
Proof. unfold record_bytes. rewrite !len_app. unfold LittleEndian_PutUint16, len. simpl. lia. Qed.

(** One round of the loop over a var that lies where the cursor is. *)
Lemma scan_record fuel pre k v suf envsize st :
  len (pre ++ record_bytes k v ++ suf) <= 65535 ->
  scan (S fuel) (pre ++ record_bytes k v ++ suf) envsize (len pre) st =
    if len pre + len (record_bytes k v) >=? envsize
    then Ret (Break (len pre + len (record_bytes k v)) (record_var k v st))
    else scan fuel (pre ++ record_bytes k v ++ suf) envsize
           (len pre + len (record_bytes k v)) (record_var k v st).
Proof.
  intros Hlen.
  pose proof (len_nonneg pre) as Hp. pose proof (len_nonneg suf) as Hs.
  pose proof (len_nonneg (bytes k)) as Hk. pose proof (len_nonneg (bytes v)) as Hv.
  assert (HT : len (pre ++ record_bytes k v ++ suf)
               = len pre + 4 + len (bytes k) + len (bytes v) + len suf).
  { rewrite !len_app, len_record_bytes. lia. }
  rewrite HT in Hlen.
  rewrite (len_record_bytes k v).
  set (a0 := Z_byte (len (bytes k))). set (a1 := Z_byte (Z.shiftr (len (bytes k)) 8)).
  set (c0 := Z_byte (len (bytes v))). set (c1 := Z_byte (Z.shiftr (len (bytes v)) 8)).
  remember (pre ++ record_bytes k v ++ suf) as envbuf eqn:E.
  assert (E0 : envbuf = pre ++ a0 :: (a1 :: bytes k ++ [c0; c1] ++ bytes v ++ suf)).
  { subst envbuf. unfold record_bytes, LittleEndian_PutUint16.
    rewrite (uint16_small (len (bytes k))) by lia.
    rewrite (uint16_small (len (bytes v))) by lia. list_assoc. }
  clear E.
  rewrite scan_S. rewrite HT.
  set (T := len pre + 4 + len (bytes k) + len (bytes v) + len suf) in *.
  rewrite (uint16_small T) by lia.
  rewrite (uint16_small (len pre + 1)) by lia.
  rewrite geb_false by lia.
  assert (E1 : envbuf = (pre ++ [a0]) ++ a1 :: (bytes k ++ [c0; c1] ++ bytes v ++ suf)).
  { rewrite E0. list_assoc. }
  assert (E2 : envbuf = (pre ++ [a0; a1]) ++ bytes k ++ ([c0; c1] ++ bytes v ++ suf)).
  { rewrite E0. list_assoc. }
  assert (E3 : envbuf = (pre ++ [a0; a1] ++ bytes k) ++ c0 :: (c1 :: bytes v ++ suf)).
  { rewrite E0. list_assoc. }
  assert (E4 : envbuf = (pre ++ [a0; a1] ++ bytes k ++ [c0]) ++ c1 :: (bytes v ++ suf)).
  { rewrite E0. list_assoc. }
  assert (E5 : envbuf = (pre ++ [a0; a1] ++ bytes k ++ [c0; c1]) ++ bytes v ++ suf).
  { rewrite E0. list_assoc. }
  assert (I0 : index envbuf (len pre) = Ret a0).
  { rewrite E0. apply index_middle. reflexivity. }
  assert (I1 : index envbuf (len pre + 1) = Ret a1).
  { rewrite E1. apply index_middle. len_solve. }
  assert (S2 : slice envbuf (len pre + 2) (len pre + 2 + len (bytes k)) = Ret (bytes k)).
  { rewrite E2. apply slice_middle; len_solve. }
  assert (I3 : index envbuf (len pre + 2 + len (bytes k)) = Ret c0).
  { rewrite E3. apply index_middle. len_solve. }
  assert (I4 : index envbuf (len pre + 2 + len (bytes k) + 1) = Ret c1).
  { rewrite E4. apply index_middle. len_solve. }
  assert (S5 : slice envbuf (len pre + 2 + len (bytes k) + 2)
                 (len pre + 2 + len (bytes k) + 2 + len (bytes v)) = Ret (bytes v)).
  { rewrite E5. apply slice_middle; len_solve. }
  assert (Ka : LittleEndian_Uint16 a0 a1 = len (bytes k)).
  { apply Uint16_PutUint16. lia. }
  assert (Kc : LittleEndian_Uint16 c0 c1 = len (bytes v)).
  { apply Uint16_PutUint16. lia. }
  rewrite I0, bind_Ret, I1, bind_Ret. cbv zeta. rewrite Ka.
  rewrite (uint16_small (len pre + 2)) by lia.
  rewrite (uint16_small (len pre + 2 + len (bytes k))) by lia.
  rewrite gtb_false by lia.
  rewrite S2, bind_Ret.
  rewrite (uint16_small (len pre + 2 + len (bytes k) + 1)) by lia.
  rewrite geb_false by lia.
  rewrite I3, bind_Ret, I4, bind_Ret. rewrite Kc.
  rewrite (uint16_small (len pre + 2 + len (bytes k) + 2)) by lia.
  rewrite (uint16_small (len pre + 2 + len (bytes k) + 2 + len (bytes v))) by lia.
  rewrite gtb_false by lia.
  rewrite S5, bind_Ret.
  unfold bytes at 1 2. rewrite !string_of_list_byte_of_string.
  replace (len pre + (4 + len (bytes k) + len (bytes v)))
    with (len pre + 2 + len (bytes k) + 2 + len (bytes v)) by lia.
  reflexivity.
Qed.

Lemma index_Ret (b : list byte) (i : Z) (x : byte) :
  index b i = Ret x -> 0 <= i -> i < len b.
Proof.
  unfold index. destruct (b !! Z.to_nat i) eqn:Hl; [|discriminate].
  intros _ Hi. apply lookup_lt_Some in Hl. unfold len. lia.
Qed.

Lemma slice_Ret (b : list byte) (lo hi : Z) (x : list byte) :
  slice b lo hi = Ret x -> lo <= hi <= len b.
Proof.
  unfold slice. destruct ((lo <=? hi) && (hi <=? len b)) eqn:Hc; [|discriminate].
  intros _. apply andb_true_iff in Hc. destruct Hc as [H1 H2].
  apply Z.leb_le in H1, H2. lia.
Qed.

Lemma geb_true_inv (a b : Z) : (a >=? b) = false -> a < b.
Proof. rewrite Z.geb_leb. intros H. apply Z.leb_gt in H. lia. Qed.

(** One round of the loop, whatever the buffer holds: it breaks at once,
    rejects the block, panics, or has read one var and moved the cursor
    forward by at least four bytes, inside the buffer. *)
Lemma index_cases (b : list byte) (i : Z) :
  (exists x, index b i = Ret x) \/ (exists p, index b i = Panics p).
Proof. unfold index. destruct (b !! Z.to_nat i); eauto. Qed.

Lemma slice_cases (b : list byte) (lo hi : Z) :
  (exists x, slice b lo hi = Ret x) \/ (exists p, slice b lo hi = Panics p).
Proof. unfold slice. destruct ((lo <=? hi) && (hi <=? len b)); eauto. Qed.

Lemma scan_cases fuel envbuf envsize i st :
  0 <= i <= 65535 -> len envbuf <= 65535 ->
  scan (S fuel) envbuf envsize i st = Ret (Break i st) \/
  scan (S fuel) envbuf envsize i st = Ret (OutOfRange st) \/
  (exists p, scan (S fuel) envbuf envsize i st = Panics p) \/
  (exists k v i', i + 4 <= i' <= len envbuf /\
     scan (S fuel) envbuf envsize i st =
       if i' >=? envsize then Ret (Break i' (record_var k v st))
       else scan fuel envbuf envsize i' (record_var k v st)).
Proof.
  intros Hi Hlen. pose proof (len_nonneg envbuf) as Hn.
  rewrite scan_S. rewrite (uint16_small (len envbuf)) by lia.
  destruct (uint16 (i + 1) >=? len envbuf) eqn:C1; [auto|].
  apply geb_true_inv in C1.
  destruct (index_cases envbuf i) as [[b0 I0]|[p I0]]; rewrite I0;
    [|right; right; left; eauto].
  apply index_Ret in I0; [|lia]. rewrite bind_Ret.
  rewrite (uint16_small (i + 1)) in * by lia.
  destruct (index_cases envbuf (i + 1)) as [[b1 I1]|[p I1]]; rewrite I1;
    [|right; right; left; eauto].
  rewrite bind_Ret. cbv zeta.
  set (kl := LittleEndian_Uint16 b0 b1).
  rewrite (uint16_small (i + 2)) by lia.
  destruct (uint16 (i + 2 + kl) >? len envbuf) eqn:C2; [auto|].
  set (i3 := uint16 (i + 2 + kl)) in *.
  destruct (slice_cases envbuf (i + 2) i3) as [[k S2]|[p S2]]; rewrite S2;
    [|right; right; left; eauto].
  apply slice_Ret in S2. rewrite bind_Ret.
  destruct (uint16 (i3 + 1) >=? len envbuf) eqn:C3; [auto|].
  apply geb_true_inv in C3.
  destruct (index_cases envbuf i3) as [[c0 I3]|[p I3]]; rewrite I3;
    [|right; right; left; eauto].
  apply index_Ret in I3; [|lia]. rewrite bind_Ret.
  rewrite (uint16_small (i3 + 1)) in * by lia.
  destruct (index_cases envbuf (i3 + 1)) as [[c1 I4]|[p I4]]; rewrite I4;
    [|right; right; left; eauto].
  rewrite bind_Ret.
  set (vl := LittleEndian_Uint16 c0 c1).
  rewrite (uint16_small (i3 + 2)) by lia.
  destruct (uint16 (i3 + 2 + vl) >? len envbuf) eqn:C4; [auto|].
  destruct (slice_cases envbuf (i3 + 2) (uint16 (i3 + 2 + vl))) as [[v S5]|[p S5]];
    rewrite S5; [|right; right; left; eauto].
  apply slice_Ret in S5. rewrite bind_Ret.
  right; right; right.
  exists (string_of_list_byte k), (string_of_list_byte v), (uint16 (i3 + 2 + vl)).
  split; [lia | reflexivity].
Qed.

(** [S (length envbuf)] rounds are enough: the loop is never cut off. *)
Lemma scan_fuel fuel envbuf envsize i st :
  0 <= i <= 65535 -> len envbuf <= 65535 ->
  (Z.to_nat (len envbuf - i) < fuel)%nat ->
  scan fuel envbuf envsize i st <> NoFuel.
Proof.
  revert i st. induction fuel as [|fuel IH]; intros i st Hi Hlen Hf; [lia|].
  destruct (scan_cases fuel envbuf envsize i st Hi Hlen)
    as [H|[H|[[p H]|(k & v & i' & Hi' & H)]]]; rewrite H; try discriminate.
  destruct (i' >=? envsize); [discriminate|].
  apply IH; lia.
Qed.

(** ** What the loop keeps *)

Lemma last_value_insert_eq env k vals v :
  last_value (<[k := vals ++ [v]]> env) k = v.
Proof. unfold last_value. rewrite lookup_insert_eq, last_snoc. reflexivity. Qed.

Lemma last_value_insert_ne env k k' vals :
  k <> k' -> last_value (<[k := vals]> env) k' = last_value env k'.
Proof. intros. unfold last_value. rewrite lookup_insert_ne by done. reflexivity. Qed.

Lemma record_var_captured k v st : captured st -> captured (record_var k v st).
Proof.
  intros (Hm & Hu & Hp). unfold record_var, captured.
  destruct (decide (k = "REQUEST_METHOD")) as [->|Nm]; simpl.
  { rewrite last_value_insert_eq, !last_value_insert_ne by done. auto. }
  destruct (decide (k = "REQUEST_URI")) as [->|Nu]; simpl.
  { rewrite last_value_insert_eq, !last_value_insert_ne by done. auto. }
  destruct (decide (k = "SERVER_PROTOCOL")) as [->|Np]; simpl.
  { rewrite last_value_insert_eq, !last_value_insert_ne by done. auto. }
  rewrite !last_value_insert_ne by done. auto.
Qed.

Lemma record_var_env k v st :
  c_env (record_var k v st) =
    <[k := match c_env st !! k with Some val => val | None => [] end ++ [v]]> (c_env st).
Proof.
  unfold record_var.
  destruct (decide (k = "REQUEST_METHOD")); [reflexivity|].
  destruct (decide (k = "REQUEST_URI")); [reflexivity|].
  destruct (decide (k = "SERVER_PROTOCOL")); reflexivity.
Qed.

Lemma record_var_nonempty k v st :
  values_nonempty (c_env st) -> values_nonempty (c_env (record_var k v st)).
Proof.
  intros H k' vals. rewrite record_var_env.
  destruct (decide (k = k')) as [->|Hne].
  - rewrite lookup_insert_eq. intros [= <-]. destruct (c_env st !! k') as [[|]|]; discriminate.
  - rewrite lookup_insert_ne by done. apply H.
Qed.

Lemma scan_keeps (P : vars -> Prop) :
  (forall k v st, P st -> P (record_var k v st)) ->
  forall fuel envbuf envsize i st i' st',
    0 <= i <= 65535 -> len envbuf <= 65535 ->
    scan fuel envbuf envsize i st = Ret (Break i' st') -> P st -> P st'.
Proof.
  intros HP. induction fuel as [|fuel IH]; intros envbuf envsize i st i' st' Hi Hlen Hs Hst.
  { discriminate. }
  destruct (scan_cases fuel envbuf envsize i st Hi Hlen)
    as [H|[H|[[p H]|(k & v & j & Hj & H)]]]; rewrite H in Hs; try discriminate.
  - injection Hs as <- <-. exact Hst.
  - destruct (j >=? envsize).
    + injection Hs as <- <-. apply HP, Hst.
    + eapply IH; [| |exact Hs|apply HP, Hst]; lia.
Qed.

(** ** The loop over a well-formed block *)

Lemma block_of_cons kv recs :
  block_of (kv :: recs) = record_bytes kv.1 kv.2 ++ block_of recs.
Proof. reflexivity. Qed.

Lemma length_block_of recs : (length recs <= length (block_of recs))%nat.
Proof.
  induction recs as [|kv recs IH]; [change (block_of []) with (@nil byte); simpl; lia|].
  rewrite block_of_cons, length_app.
  pose proof (len_record_bytes kv.1 kv.2) as H. unfold len in H. simpl length. lia.
Qed.

Lemma scan_block recs : forall fuel pre st,
  recs <> [] ->
  len (pre ++ block_of recs) <= 65535 ->
  (length recs <= fuel)%nat ->
  scan fuel (pre ++ block_of recs) (len (pre ++ block_of recs)) (len pre) st
    = Ret (Break (len (pre ++ block_of recs)) (record_vars recs st)).
Proof.
  induction recs as [|kv recs IH]; intros fuel pre st Hne Hlen Hf; [done|].
  destruct fuel as [|fuel]; [simpl in Hf; lia|].
  rewrite block_of_cons in *.
  rewrite scan_record by exact Hlen.
  destruct recs as [|kv' recs].
  - change (block_of []) with (@nil byte). rewrite !app_nil_r.
    rewrite len_app. rewrite Z.geb_leb, Z.leb_refl. reflexivity.
  - rewrite geb_false.
    2:{ rewrite !len_app. rewrite (block_of_cons kv'), len_app, !len_record_bytes.
        pose proof (len_nonneg (bytes kv'.1)). pose proof (len_nonneg (bytes kv'.2)).
        pose proof (len_nonneg (block_of recs)). lia. }
    replace (len pre + len (record_bytes kv.1 kv.2))
      with (len (pre ++ record_bytes kv.1 kv.2)) by apply len_app.
    rewrite (app_assoc pre) in *.
    rewrite IH; [reflexivity|done|exact Hlen|simpl in *; lia].
Qed.

Lemma scan_whole_block recs st :
  len (block_of recs) <= 65535 ->
  scan (S (length (block_of recs))) (block_of recs) (len (block_of recs)) 0 st
    = Ret (Break (len (block_of recs)) (record_vars recs st)).
Proof.
  intros Hlen. destruct recs as [|kv recs]; [reflexivity|].
  apply (scan_block (kv :: recs) _ [] st); [done|exact Hlen|].
  pose proof (length_block_of (kv :: recs)). lia.
Qed.

(** ** The goroutine on a well-formed frame *)

Lemma read_head_frame p m1 lo hi m2 rest :
  head_in_first_chunk p ->
  concat p = [m1; lo; hi; m2] ++ rest ->
  exists p', read_head (mk_net_Conn p false) = ([m1; lo; hi; m2], mk_net_Conn p' false)
             /\ concat p' = rest.
Proof.
  intros (c & p' & -> & Hc) Hcat. simpl in Hcat.
  destruct c as [|x0 [|x1 [|x2 [|x3 c]]]]; simpl in Hc; try lia.
  simpl in Hcat. injection Hcat as -> -> -> -> Hrest.
  unfold read_head, net_Read. simpl.
  destruct c as [|y c]; simpl; eauto.
Qed.

Lemma io_ReadFull_enough (n : nat) p block rest :
  concat p = block ++ rest -> n = length block ->
  exists p', io_ReadFull n (mk_net_Conn p false) = (block, None, mk_net_Conn p' false)
             /\ concat p' = rest.
Proof.
  intros Hcat ->. unfold io_ReadFull. destruct (length block) as [|n] eqn:Hn.
  - destruct block; [|discriminate]. exists p. auto.
  - cbn [closed pending].
    destruct (ReadFull_loop_enough (S n) [] p) as (p' & Hr & Hc).
    { rewrite Hcat, length_app. lia. }
    rewrite Hr. exists p'. rewrite Hc, Hcat, <- Hn.
    rewrite take_app_length, drop_app_length. auto.
Qed.

Lemma Accept_go_frame range_env p m1 m2 recs rest :
  len (block_of recs) <= 65535 ->
  head_in_first_chunk p ->
  concat p = frame_of m1 m2 recs ++ rest ->
  exists fd, concat (pending fd) = rest /\ closed fd = false /\
    Accept_go range_env (Accept (mk_net_Conn p false)) =
      let st := record_vars recs no_vars in
      if decide (reqProtocol st = "")
      then Ret (fail (Accept (mk_net_Conn p false)) fd (c_env st) invalid_protocol)
      else
        '(buf, cl) ← header_rounds (c_env st) (bytes (request_line st), 0)
                       (range_env (c_env st));
        Ret (mk_Conn fd (c_env st) (buf ++ bytes CRLF) false false [true] None).
Proof.
  intros Hlen Hhead Hcat.
  pose proof (len_nonneg (block_of recs)) as Hn.
  set (lo := Z_byte (len (block_of recs))).
  set (hi := Z_byte (Z.shiftr (len (block_of recs)) 8)).
  assert (Hsz : LittleEndian_Uint16 lo hi = len (block_of recs)).
  { apply Uint16_PutUint16. lia. }
  destruct (read_head_frame p m1 lo hi m2 (block_of recs ++ rest) Hhead) as (p1 & Hrh & Hp1).
  { rewrite Hcat. unfold frame_of, LittleEndian_PutUint16. list_assoc. }
  destruct (io_ReadFull_enough (Z.to_nat (len (block_of recs))) p1 (block_of recs) rest Hp1)
    as (p2 & Hrf & Hp2).
  { unfold len. lia. }
  exists (mk_net_Conn p2 false). split; [exact Hp2|]. split; [reflexivity|].
  unfold Accept_go. simpl netConn. rewrite Hrh.
  change (index [m1; lo; hi; m2] 1) with (Ret lo).
  change (index [m1; lo; hi; m2] 2) with (Ret hi). rewrite !bind_Ret.
  cbv zeta. rewrite Hsz, Hrf.
  change (mk_vars "" "" "" (env (Accept (mk_net_Conn p false)))) with no_vars.
  rewrite scan_whole_block by exact Hlen. rewrite bind_Ret.
  reflexivity.
Qed.

(** ** What a successful run of the goroutine leaves *)

Lemma net_Read_stream n fd b e fd' :
  net_Read n fd = (b, e, fd') ->
  concat (pending fd) = b ++ concat (pending fd') /\ (length b <= n)%nat
  /\ closed fd' = closed fd.
Proof.
  unfold net_Read. destruct (closed fd) eqn:Hc.
  { intros [= <- <- <-]. simpl. auto with lia. }
  destruct n as [|n].
  { intros [= <- <- <-]. simpl. auto with lia. }
  destruct (pending fd) as [|c p] eqn:Hp.
  { intros [= <- <- <-]. rewrite Hp. simpl. auto with lia. }
  intros [= <- <- <-]. cbn [pending closed]. split; [|split; [|done]].
  - cbn [concat]. rewrite <- (take_drop (S n) c) at 1.
    destruct (drop (S n) c) as [|x r] eqn:Hd; cbn [concat].
    + rewrite app_nil_r. reflexivity.
    + rewrite <- app_assoc. reflexivity.
  - rewrite length_take. lia.
Qed.

Lemma io_ReadFull_stream n fd got fd' :
  io_ReadFull n fd = (got, None, fd') ->
  concat (pending fd) = got ++ concat (pending fd') /\ length got = n
  /\ closed fd' = closed fd.
Proof.
  unfold io_ReadFull. destruct n as [|n].
  { intros [= <- <-]. auto. }
  destruct (closed fd) eqn:Hc; [discriminate|].
  destruct (ReadFull_loop (S n) [] (pending fd)) as [[g e] p'] eqn:Hr.
  intros [= -> -> <-]. apply ReadFull_loop_ok in Hr. destruct Hr as (-> & Hp & Hle).
  cbn [pending closed]. rewrite Hp. simpl. rewrite take_drop.
  split; [reflexivity|]. split; [|done]. rewrite length_take. lia.
Qed.

Lemma lines_bytes_app l1 l2 : lines_bytes (l1 ++ l2) = lines_bytes l1 ++ lines_bytes l2.
Proof. unfold lines_bytes. apply bind_app. Qed.

Lemma fold_header_lines hname vals : forall buf,
  fold_left (fun buf v => Fprintf buf (hname +:+ ": " +:+ v +:+ CRLF)) vals buf
    = buf ++ lines_bytes (header_line hname <$> vals).
Proof.
  induction vals as [|v vals IH]; intros buf; simpl.
  - rewrite app_nil_r. reflexivity.
  - rewrite IH. unfold Fprintf. rewrite <- app_assoc. reflexivity.
Qed.

Lemma header_round_lines env buf cl i :
  (i = "CONTENT_LENGTH" -> exists v0 vals, env !! i = Some (v0 :: vals)) ->
  exists cl', header_round env (buf, cl) i = Ret (buf ++ lines_bytes (key_lines env i), cl').
Proof.
  intros Hcl. unfold header_round, key_lines.
  destruct (decide (i = "CONTENT_LENGTH")) as [Hi|Hi].
  - destruct (Hcl Hi) as (v0 & vals & ->).
    destruct (strconv_ParseInt v0 >? 0); eexists.
    + unfold Fprintf, lines_bytes. simpl. rewrite app_nil_r. reflexivity.
    + simpl. rewrite app_nil_r. reflexivity.
  - eexists. rewrite fold_header_lines. reflexivity.
Qed.

Lemma header_rounds_lines env keys : forall buf cl,
  ("CONTENT_LENGTH" ∈ keys -> exists v0 vals, env !! "CONTENT_LENGTH" = Some (v0 :: vals)) ->
  exists cl', header_rounds env (buf, cl) keys
              = Ret (buf ++ lines_bytes (keys ≫= key_lines env), cl').
Proof.
  induction keys as [|i keys IH]; intros buf cl Hcl.
  - exists cl. simpl. rewrite app_nil_r. reflexivity.
  - cbn [header_rounds].
    destruct (header_round_lines env buf cl i) as (cl1 & ->).
    { intros ->. apply Hcl. left. }
    rewrite bind_Ret.
    destruct (IH (buf ++ lines_bytes (key_lines env i)) cl1) as (cl2 & ->).
    { intros Hin. apply Hcl. right. exact Hin. }
    exists cl2. rewrite <- app_assoc, <- lines_bytes_app. reflexivity.
Qed.

Lemma range_ok_lookup (r : range_order) env i :
  range_ok r -> i ∈ r env -> exists vals, env !! i = Some vals.
Proof.
  intros Hr Hin. rewrite (Hr env) in Hin.
  apply list_elem_of_fmap in Hin. destruct Hin as ([k vals] & -> & Hin).
  apply elem_of_map_to_list in Hin. eauto.
Qed.

Lemma header_rounds_env (r : range_order) env buf cl :
  range_ok r -> values_nonempty env ->
  exists cl', header_rounds env (buf, cl) (r env)
              = Ret (buf ++ lines_bytes (r env ≫= key_lines env), cl').
Proof.
  intros Hr Hne. apply header_rounds_lines. intros Hin.
  destruct (range_ok_lookup r env _ Hr Hin) as (vals & Hl).
  destruct vals as [|v0 vals]; [exfalso; eapply Hne; eauto|eauto].
Qed.

(** What a run of the goroutine that ends without error has done, the
    same whatever the order of [range]: it has read at most four bytes of
    header and the block [envbuf], the loop has ended with the variables
    [st], and the buffer holds the request line, the header lines and the
    empty line. *)
Lemma Accept_go_ok fd :
  exists hd envbuf i st fd2,
  forall (r : range_order) c,
    range_ok r -> Accept_go r (Accept fd) = Ret c -> err c = None ->
    (length hd <= 4)%nat /\ len envbuf <= 65535 /\
    concat (pending fd) = hd ++ envbuf ++ concat (pending fd2) /\
    scan (S (length envbuf)) envbuf (len envbuf) 0 no_vars = Ret (Break i st) /\
    reqProtocol st <> "" /\ captured st /\ values_nonempty (c_env st) /\
    c = mk_Conn fd2 (c_env st)
          (bytes (request_line st) ++ lines_bytes (r (c_env st) ≫= key_lines (c_env st))
             ++ bytes CRLF)
          false false [true] None.
Proof.
  unfold Accept_go, read_head. simpl netConn.
  destruct (net_Read 4 fd) as [[hd e0] fd1] eqn:Hrd.
  apply net_Read_stream in Hrd. destruct Hrd as (Hs1 & Hl1 & Hc1).
  destruct (index (hd ++ replicate (4 - length hd) x00) 1) as [b0| |] eqn:I0;
    [|exists [], [], 0, no_vars, fd; intros; discriminate ..].
  destruct (index (hd ++ replicate (4 - length hd) x00) 2) as [b1| |] eqn:I1;
    [|exists [], [], 0, no_vars, fd; intros; discriminate ..].
  cbn [mbind go_bind]. cbv zeta.
  pose proof (Uint16_range b0 b1) as Hsz.
  set (envsize := LittleEndian_Uint16 b0 b1) in *.
  destruct (io_ReadFull (Z.to_nat envsize) fd1) as [[envbuf e] fd2] eqn:Hrf.
  destruct e as [e|].
  { exists [], [], 0, no_vars, fd. intros r c _ [= <-]. discriminate. }
  apply io_ReadFull_stream in Hrf. destruct Hrf as (Hs2 & Hl2 & Hc2).
  assert (Hlen : len envbuf = envsize) by (unfold len; lia).
  change (mk_vars "" "" "" (env (Accept fd))) with no_vars.
  destruct (scan (S (length envbuf)) envbuf envsize 0 no_vars) as [sc| |] eqn:Hsc;
    [|exists [], [], 0, no_vars, fd; intros; discriminate ..].
  cbn [mbind go_bind]. destruct sc as [i st|].
  2:{ exists [], [], 0, no_vars, fd. intros r c _ [= <-]. discriminate. }
  exists hd, envbuf, i, st, fd2. intros r c Hr Hgo Herr.
  destruct (decide (reqProtocol st = "")) as [Hp|Hp].
  { injection Hgo as <-. discriminate. }
  assert (Hcap : captured st).
  { eapply (scan_keeps captured); [apply record_var_captured| | |exact Hsc|]; try lia.
    unfold captured, no_vars, last_value. simpl. rewrite lookup_empty. auto. }
  assert (Hne : values_nonempty (c_env st)).
  { eapply (scan_keeps (fun st => values_nonempty (c_env st)));
      [apply record_var_nonempty| | |exact Hsc|]; try lia.
    intros k vals. simpl. rewrite lookup_empty. discriminate. }
  destruct (header_rounds_env r (c_env st)
              (Fprintf (reader (Accept fd))
                 (reqMethod st +:+ " " +:+ reqURI st +:+ " " +:+ reqProtocol st +:+ CRLF))
              0 Hr Hne) as (cl & Hh).
  rewrite Hh in Hgo. rewrite bind_Ret in Hgo. injection Hgo as <-.
  rewrite Hlen.
  split; [exact Hl1|]. split; [lia|]. split; [rewrite Hs1, Hs2; reflexivity|].
  split; [exact Hsc|]. split; [exact Hp|]. split; [exact Hcap|]. split; [exact Hne|].
  unfold Fprintf, request_line. simpl. rewrite <- app_assoc. reflexivity.
Qed.

(** ** The frame that [ServeHTTP] writes *)

Lemma uint16_add_l a b : uint16 (uint16 a + b) = uint16 (a + b).
Proof. unfold uint16. apply Zplus_mod_idemp_l. Qed.

Lemma uint16_add_r a b : uint16 (a + uint16 b) = uint16 (a + b).
Proof. unfold uint16. apply Zplus_mod_idemp_r. Qed.

Lemma block_of_app r1 r2 : block_of (r1 ++ r2) = block_of r1 ++ block_of r2.
Proof. unfold block_of. apply bind_app. Qed.

Lemma header_vars_cons k keys header :
  header_vars (k :: keys) header =
    (pair k <$> match header !! k with Some v => v | None => [] end)
    ++ header_vars keys header.
Proof. reflexivity. Qed.

Lemma frame_vars_block keys header :
  concat (frame_vars keys header) = block_of (header_vars keys header).
Proof.
  unfold frame_vars. induction keys as [|k keys IH]; [reflexivity|].
  rewrite header_vars_cons, block_of_app. cbn [mbind list_bind]. rewrite concat_app, IH.
  f_equal. clear IH.
  induction (match header !! k with Some v => v | None => [] end) as [|vv vals IHv];
    [reflexivity|].
  cbn [mbind list_bind fmap list_fmap]. rewrite concat_app, IHv.
  rewrite block_of_cons. f_equal. unfold record_bytes. simpl. rewrite app_nil_r.
  reflexivity.
Qed.

Lemma frame_size_values k vals : forall size n,
  size = uint16 n ->
  fold_left
    (fun size vv =>
       let size := uint16 (size + uint16 (uint16 (len (bytes k)) + 2)) in
       uint16 (size + uint16 (uint16 (len (bytes vv)) + 2)))
    vals size
  = uint16 (n + len (block_of (pair k <$> vals))).
Proof.
  induction vals as [|vv vals IH]; intros size n ->.
  - change (block_of (pair k <$> [])) with (@nil byte). unfold len. simpl.
    rewrite Z.add_0_r. reflexivity.
  - cbn [fold_left fmap list_fmap].
    rewrite (IH _ (n + len (record_bytes k vv))).
    + rewrite block_of_cons, len_app. f_equal. simpl. lia.
    + cbv zeta. rewrite len_record_bytes.
      unfold uint16. Z.to_euclidean_division_equations. lia.
Qed.

Lemma frame_size_block keys header : forall size n,
  size = uint16 n ->
  fold_left
    (fun size k =>
       fold_left
         (fun size vv =>
            let size := uint16 (size + uint16 (uint16 (len (bytes k)) + 2)) in
            uint16 (size + uint16 (uint16 (len (bytes vv)) + 2)))
         (match header !! k with Some v => v | None => [] end) size)
    keys size
  = uint16 (n + len (block_of (header_vars keys header))).
Proof.
  induction keys as [|k keys IH]; intros size n ->.
  - change (block_of (header_vars [] header)) with (@nil byte). unfold len. simpl.
    rewrite Z.add_0_r. reflexivity.
  - cbn [fold_left].
    rewrite (IH _ (n + len (block_of (pair k <$> match header !! k with
                                                 | Some v => v | None => [] end)))).
    + rewrite header_vars_cons, block_of_app, len_app. f_equal. lia.
    + apply frame_size_values. reflexivity.
Qed.

Lemma frame_size_len keys header :
  frame_size keys header = uint16 (len (block_of (header_vars keys header))).
Proof.
  change (len (block_of (header_vars keys header)))
    with (0 + len (block_of (header_vars keys header))).
  apply frame_size_block. reflexivity.
Qed.

Lemma header_vars_Permutation keys1 keys2 header :
  keys1 ≡ₚ keys2 -> header_vars keys1 header ≡ₚ header_vars keys2 header.
Proof. intros H. unfold header_vars. rewrite H. reflexivity. Qed.

Lemma len_block_Permutation r1 r2 : r1 ≡ₚ r2 -> len (block_of r1) = len (block_of r2).
Proof. intros H. unfold len, block_of. rewrite H. reflexivity. Qed.

Lemma frame_size_header (r : range_order) header :
  range_ok r -> frame_length header <= 65535 ->
  frame_size (r header) header = frame_length header.
Proof.
  intros Hr Hlen. rewrite frame_size_len.
  rewrite (len_block_Permutation _ _ (header_vars_Permutation _ _ header (Hr header))).
  apply uint16_small. unfold frame_length in *. pose proof (len_nonneg
    (block_of (header_vars (map_to_list header).*1 header))). lia.
Qed.

(** The writes of [ServeHTTP], put end to end, are a frame. *)
Lemma frame_writes_frame W header body :
  range_ok (range_size W) -> range_ok (range_write W) ->
  frame_length header <= 65535 ->
  concat (frame_writes W header body)
    = frame_of x00 x00 (header_vars (range_write W header) header) ++ concat body
  /\ len (block_of (header_vars (range_write W header) header)) <= 65535.
Proof.
  intros Hs Hw Hlen.
  assert (Hl : len (block_of (header_vars (range_write W header) header))
               = frame_length header).
  { apply len_block_Permutation, header_vars_Permutation, Hw. }
  split; [|lia].
  unfold frame_writes, frame_of. cbn [concat].
  rewrite concat_app, frame_vars_block, frame_size_header, Hl by assumption.
  list_assoc.
Qed.

(** ** The map that the record loop builds from the vars of a map *)

Lemma record_vars_app r1 r2 st :
  record_vars (r1 ++ r2) st = record_vars r2 (record_vars r1 st).
Proof. unfold record_vars. apply fold_left_app. Qed.

Lemma record_vars_key k vals : forall st,
  vals <> [] ->
  c_env (record_vars (pair k <$> vals) st)
    = <[k := match c_env st !! k with Some val => val | None => [] end ++ vals]> (c_env st).
Proof.
  induction vals as [|v vals IH]; intros st Hne; [done|].
  cbn [fmap list_fmap]. unfold record_vars. cbn [fold_left]. fold (record_vars (pair k <$> vals)).
  destruct vals as [|v' vals].
  - simpl. apply record_var_env.
  - rewrite IH by done. simpl fst. simpl snd. rewrite record_var_env, lookup_insert_eq.
    rewrite insert_insert_eq, <- app_assoc. reflexivity.
Qed.

Lemma record_vars_header keys header : forall st,
  NoDup keys ->
  (forall k, k ∈ keys -> c_env st !! k = None) ->
  values_nonempty header ->
  forall k,
    c_env (record_vars (header_vars keys header) st) !! k
    = if decide (k ∈ keys) then header !! k else c_env st !! k.
Proof.
  induction keys as [|k0 keys IH]; intros st Hnd Hfresh Hne k.
  - simpl. destruct (decide (k ∈ [])) as [Hin|_]; [|reflexivity].
    apply elem_of_nil in Hin. done.
  - apply NoDup_cons in Hnd. destruct Hnd as [Hk0 Hnd].
    rewrite header_vars_cons, record_vars_app.
    destruct (header !! k0) as [vals|] eqn:Hh.
    + assert (Hv : vals <> []) by (eapply Hne; eauto).
      rewrite IH; [|exact Hnd| |exact Hne].
      2:{ intros k' Hk'. rewrite record_vars_key by exact Hv.
          rewrite lookup_insert_ne by (intros ->; done).
          apply Hfresh. right. exact Hk'. }
      rewrite record_vars_key by exact Hv.
      rewrite (Hfresh k0) by left. simpl.
      destruct (decide (k ∈ keys)) as [Hin|Hnin].
      * rewrite decide_True by (right; exact Hin). reflexivity.
      * destruct (decide (k = k0)) as [->|Hne0].
        -- rewrite decide_True by left. rewrite lookup_insert_eq. congruence.
        -- rewrite decide_False.
           2:{ intros Hin. apply elem_of_cons in Hin. destruct Hin; done. }
           rewrite lookup_insert_ne by done. reflexivity.
    + change (record_vars (pair k0 <$> []) st) with st.
      rewrite IH; [|exact Hnd| |exact Hne].
      2:{ intros k' Hk'. apply Hfresh. right. exact Hk'. }
      destruct (decide (k ∈ keys)) as [Hin|Hnin].
      * rewrite decide_True by (right; exact Hin). reflexivity.
      * destruct (decide (k = k0)) as [->|Hne0].
        -- rewrite decide_True by left. rewrite Hh. apply Hfresh. left.
        -- rewrite decide_False; [reflexivity|].
           intros Hin. apply elem_of_cons in Hin. destruct Hin; done.
Qed.

Lemma record_vars_range (r : range_order) header :
  range_ok r -> values_nonempty header ->
  c_env (record_vars (header_vars (r header) header) no_vars) = header.
Proof.
  intros Hr Hne. apply map_eq. intros k.
  rewrite record_vars_header; [| | |exact Hne].
  - destruct (decide (k ∈ r header)) as [Hin|Hnin]; [reflexivity|].
    simpl. rewrite lookup_empty. symmetry.
    destruct (header !! k) as [vals|] eqn:Hh; [|reflexivity].
    exfalso. apply Hnin. rewrite (Hr header).
    apply list_elem_of_fmap. exists (k, vals). split; [reflexivity|].
    apply elem_of_map_to_list. exact Hh.
  - rewrite (Hr header). apply NoDup_fst_map_to_list.
  - intros k' _. simpl. apply lookup_empty.
Qed.

Lemma record_vars_captured recs : forall st, captured st -> captured (record_vars recs st).
Proof.
  induction recs as [|kv recs IH]; intros st Hst; [exact Hst|].
  apply (IH (record_var kv.1 kv.2 st)). apply record_var_captured, Hst.
Qed.

Lemma captured_no_vars : captured no_vars.
Proof. unfold captured, no_vars, last_value. simpl. rewrite lookup_empty. auto. Qed.

(** ** Orders of [range] and maps for the examples *)

Lemma range_ok_keys_sorted : range_ok keys_sorted.
Proof. intros m. reflexivity. Qed.

Lemma range_ok_keys_reversed : range_ok keys_reversed.
Proof. intros m. unfold keys_reversed. apply reverse_Permutation. Qed.

Lemma values_nonempty_check env :
  forallb (fun kv : string * list string => match kv.2 with [] => false | _ => true end)
          (map_to_list env) = true ->
  values_nonempty env.
Proof.
  intros H k vals Hk. apply elem_of_map_to_list in Hk.
  rewrite forallb_forall in H. apply list_elem_of_In in Hk. specialize (H _ Hk).
  destruct vals; [discriminate|done].
Qed.

Lemma record_vars_nonempty recs : forall st,
  values_nonempty (c_env st) -> values_nonempty (c_env (record_vars recs st)).
Proof.
  induction recs as [|kv recs IH]; intros st Hst; [exact Hst|].
  apply (IH (record_var kv.1 kv.2 st)). apply record_var_nonempty, Hst.
Qed.

Lemma values_nonempty_no_vars : values_nonempty (c_env no_vars).
Proof. intros k vals. simpl. rewrite lookup_empty. discriminate. Qed.

Lemma reqProtocol_record_var k v st :
  reqProtocol (record_var k v st) = if decide (k = "SERVER_PROTOCOL") then v else reqProtocol st.
Proof.
  unfold record_var.
  destruct (decide (k = "REQUEST_METHOD")) as [->|]; [reflexivity|].
  destruct (decide (k = "REQUEST_URI")) as [->|]; [reflexivity|].
  destruct (decide (k = "SERVER_PROTOCOL")); reflexivity.
Qed.

Lemma reqProtocol_empty recs : forall st,
  reqProtocol st = "" ->
  (forall v, ("SERVER_PROTOCOL", v) ∈ recs -> v = "") ->
  reqProtocol (record_vars recs st) = "".
Proof.
  induction recs as [|[k v] recs IH]; intros st Hst Hall; [exact Hst|].
  apply (IH (record_var k v st)).
  - rewrite reqProtocol_record_var. destruct (decide (k = "SERVER_PROTOCOL")) as [->|]; [|exact Hst].
    apply Hall. left.
  - intros v' Hin. apply Hall. right. exact Hin.
Qed.

(** ** [Conn.Read] after the goroutine *)

Lemma Read_rest_delivers n c b e c' :
  n <> O -> buffer_served c ->
  Read_rest n c = (b, e, c') ->
  b ++ to_deliver c' = to_deliver c /\ buffer_served c'
  /\ ready c' = ready c /\ readych c' = readych c.
Proof.
  intros Hn Hb. unfold Read_rest, to_deliver, buffer_served in *.
  destruct (err c) as [e0|] eqn:He.
  { intros [= <- <- <-]. auto. }
  destruct (hdrdone c) eqn:Hd.
  - cbv beta iota zeta. rewrite Hd.
    destruct (net_Read n (netConn c)) as [[b1 e2] fd] eqn:Hrd.
    intros [= <- <- <-]. apply net_Read_stream in Hrd. destruct Hrd as (Hs & _ & _).
    simpl. rewrite (Hb eq_refl), Hs. simpl. auto.
  - unfold Buffer_Read. destruct (reader c) as [|x buf] eqn:Hr.
    + destruct n as [|n]; [done|]. simpl.
      destruct (net_Read (S n) (netConn c)) as [[b1 e2] fd] eqn:Hrd.
      intros [= <- <- <-]. apply net_Read_stream in Hrd. destruct Hrd as (Hs & _ & _).
      simpl. rewrite Hs. auto.
    + destruct n as [|n]; [done|]. simpl.
      intros [= <- <- <-]. simpl. rewrite app_assoc, take_drop.
      split; [reflexivity|]. split; [discriminate|auto].
Qed.

(** Reads with buffers that are not empty never repeat nor skip a byte:
    what they return, put end to end, is the start of the buffer followed
    by the bytes of the transport. *)
Lemma Reads_in_order ns : forall c,
  Forall (fun n => n <> O) ns -> buffer_served c -> signalled c ->
  exists bs c', Reads ns c = Some (bs, c') /\ bs ++ to_deliver c' = to_deliver c.
Proof.
  induction ns as [|n ns IH]; intros c Hns Hb Hs.
  { exists [], c. auto. }
  apply Forall_cons in Hns. destruct Hns as [Hn Hns].
  cbn [Reads]. unfold Read.
  assert (Hstep : exists b e c1, (if Read_waits c
             then match readych c with
                  | [] => Blocked
                  | _ :: ch => let '(b, e, c) := Read_rest n (received c ch) in Returns b e c
                  end
             else let '(b, e, c) := Read_rest n c in Returns b e c) = Returns b e c1
           /\ b ++ to_deliver c1 = to_deliver c /\ buffer_served c1 /\ signalled c1).
  { destruct (Read_waits c) eqn:Hw.
    - unfold Read_waits in Hw. apply andb_true_iff in Hw. destruct Hw as [Hrdy Herr].
      apply negb_true_iff in Hrdy. apply bool_decide_eq_true in Herr.
      destruct (readych c) as [|v ch] eqn:Hch.
      { destruct Hs as [Hs|[Hs|Hs]]; congruence. }
      destruct (Read_rest n (received c ch)) as [[b e] c1] eqn:Hrr.
      apply Read_rest_delivers in Hrr; [|exact Hn|exact Hb].
      destruct Hrr as (Hd & Hb1 & Hr1 & _).
      exists b, e, c1. split; [reflexivity|]. split; [exact Hd|]. split; [exact Hb1|].
      left. rewrite Hr1. reflexivity.
    - destruct (Read_rest n c) as [[b e] c1] eqn:Hrr.
      pose proof Hrr as Hrr'. apply Read_rest_delivers in Hrr; [|exact Hn|exact Hb].
      destruct Hrr as (Hd & Hb1 & Hr1 & Hc1).
      exists b, e, c1. split; [reflexivity|]. split; [exact Hd|]. split; [exact Hb1|].
      unfold Read_waits in Hw. apply andb_false_iff in Hw. destruct Hw as [Hw|Hw].
      + left. rewrite Hr1. apply negb_false_iff in Hw. exact Hw.
      + apply bool_decide_eq_false in Hw. unfold Read_rest in Hrr'.
        destruct (err c) as [e0|] eqn:He; [|done].
        injection Hrr' as <- <- <-. right. right. rewrite He. discriminate. }
  destruct Hstep as (b & e & c1 & -> & Hd & Hb1 & Hs1).
  destruct (IH c1 Hns Hb1 Hs1) as (bs & c' & -> & Hd').
  exists (b ++ bs), c'. split; [reflexivity|]. rewrite <- Hd, <- Hd', app_assoc. reflexivity.
Qed.

(** ** The goroutine always ends *)

Lemma header_rounds_fuel env keys : forall st, header_rounds env st keys <> NoFuel.
Proof.
  induction keys as [|i keys IH]; intros [buf cl]; [discriminate|].
  cbn [header_rounds]. unfold header_round at 1.
  destruct (decide (i = "CONTENT_LENGTH")).
  - destruct (env !! i) as [[|v0 vals]|]; try discriminate; rewrite bind_Ret; apply IH.
  - rewrite bind_Ret. apply IH.
Qed.

(** The bound on the rounds of the record loop is never reached: a run of
    the goroutine returns or panics. *)
Lemma Accept_go_fuel (r : range_order) fd : Accept_go r (Accept fd) <> NoFuel.
Proof.
  unfold Accept_go, read_head. simpl netConn.
  destruct (net_Read 4 fd) as [[hd e0] fd1].
  destruct (index_cases (hd ++ replicate (4 - length hd) x00) 1) as [[b0 I0]|[p I0]];
    rewrite I0; [|discriminate].
  destruct (index_cases (hd ++ replicate (4 - length hd) x00) 2) as [[b1 I1]|[p I1]];
    rewrite I1; [|discriminate].
  rewrite !bind_Ret. cbv zeta.
  pose proof (Uint16_range b0 b1) as Hsz.
  set (envsize := LittleEndian_Uint16 b0 b1) in *.
  destruct (io_ReadFull (Z.to_nat envsize) fd1) as [[envbuf e] fd2] eqn:Hrf.
  destruct e as [e|]; [discriminate|].
  apply io_ReadFull_stream in Hrf. destruct Hrf as (_ & Hl2 & _).
  change (mk_vars "" "" "" (env (Accept fd))) with no_vars.
  pose proof (scan_fuel (S (length envbuf)) envbuf envsize 0 no_vars) as Hf.
  destruct (scan (S (length envbuf)) envbuf envsize 0 no_vars) as [sc| |].
  - rewrite bind_Ret. destruct sc as [i st|st]; [|discriminate].
    destruct (decide (reqProtocol st = "")); [discriminate|].
    pose proof (header_rounds_fuel (c_env st)
      (r (c_env st))
      (Fprintf (reader (Accept fd))
         (reqMethod st +:+ " " +:+ reqURI st +:+ " " +:+ reqProtocol st +:+ CRLF), 0)) as Hh.
    destruct (header_rounds (c_env st)
      (Fprintf (reader (Accept fd))
         (reqMethod st +:+ " " +:+ reqURI st +:+ " " +:+ reqProtocol st +:+ CRLF), 0)
      (r (c_env st))) as [[buf cl]| |]; [discriminate|discriminate|].
    exfalso. apply Hh. reflexivity.
  - discriminate.
  - exfalso. apply Hf; [lia|unfold len; lia|unfold len; lia|reflexivity].
Qed.

(** ** The earlier revision

    What the claims C3 and C4 say is what the earlier revision of [Accept]
    does. *)

Lemma Rev1_header_rounds_append env keys : forall buf cl buf' cl',
  Rev1.header_rounds env (buf, cl) keys = Ret (buf', cl') ->
  exists written, buf' = buf ++ written.
Proof.
  induction keys as [|i keys IH]; intros buf cl buf' cl' H.
  - injection H as <- <-. exists []. rewrite app_nil_r. reflexivity.
  - cbn [Rev1.header_rounds] in H.
    destruct (Rev1.header_round env (buf, cl) i) as [[buf1 cl1]| |] eqn:Hr; try discriminate.
    rewrite bind_Ret in H. apply IH in H. destruct H as (w2 & ->).
    unfold Rev1.header_round in Hr.
    destruct (decide (i = "CONTENT_LENGTH")).
    + destruct (env !! i) as [[|v0 vals]|]; try discriminate.
      injection Hr as <- <-.
      destruct (strconv_ParseInt v0 >? 0).
      * unfold Fprintf. rewrite <- app_assoc. eauto.
      * eauto.
    + injection Hr as <- <-. rewrite fold_header_lines, <- app_assoc. eauto.
Qed.

(** In the earlier revision the request line ends in the literal
    [HTTP/1.0], whatever protocol the frame declares. *)
Theorem Rev1_request_line_fixed (r : range_order) fd c :
  Rev1.Accept r fd = Ret (inr c) ->
  exists rest,
    Rev1.reader c = bytes (last_value (Rev1.env c) "REQUEST_METHOD" +:+ " " +:+
                           last_value (Rev1.env c) "REQUEST_URI" +:+ " HTTP/1.0" +:+ CRLF)
                    ++ rest.
Proof.
  unfold Rev1.Accept, read_head.
  destruct (net_Read 4 fd) as [[hd e0] fd1].
  destruct (index (hd ++ replicate (4 - length hd) x00) 1) as [b0| |]; try discriminate.
  destruct (index (hd ++ replicate (4 - length hd) x00) 2) as [b1| |]; try discriminate.
  rewrite !bind_Ret. cbv zeta.
  pose proof (Uint16_range b0 b1) as Hsz.
  set (envsize := LittleEndian_Uint16 b0 b1) in *.
  destruct (io_ReadFull (Z.to_nat envsize) fd1) as [[envbuf e] fd2] eqn:Hrf.
  destruct e as [e|]; [discriminate|].
  apply io_ReadFull_stream in Hrf. destruct Hrf as (_ & Hl2 & _).
  destruct (scan (S (length envbuf)) envbuf envsize 0 no_vars) as [sc| |] eqn:Hsc;
    try discriminate.
  rewrite bind_Ret. destruct sc as [i st|]; [|discriminate].
  destruct (decide (reqProtocol st = "")); [discriminate|].
  assert (Hcap : captured st).
  { eapply (scan_keeps captured); [apply record_var_captured| | |exact Hsc|apply captured_no_vars];
      unfold len; lia. }
  destruct Hcap as (Hm & Hu & _).
  destruct (Rev1.header_rounds (c_env st)
              (Fprintf [] (reqMethod st +:+ " " +:+ reqURI st +:+ " " +:+ "HTTP/1.0" +:+ CRLF), 0)
              (r (c_env st))) as [[buf cl]| |] eqn:Hh; try discriminate.
  rewrite bind_Ret. apply Rev1_header_rounds_append in Hh. destruct Hh as (w & ->).
  destruct (cl >? 0).
  - unfold Rev1.io_CopyN. destruct (closed fd2).
    + intros [= <-]. simpl. rewrite <- Hm, <- Hu, <- !app_assoc. eauto.
    + destruct (ReadFull_loop (Z.to_nat cl) [] (pending fd2)) as [[got e1] p1].
      intros [= <-]. simpl. rewrite <- Hm, <- Hu, <- !app_assoc. eauto.
  - intros [= <-]. simpl. rewrite <- Hm, <- Hu, <- !app_assoc. eauto.
Qed.

Lemma Rev1_request_line_fixed_witness :
  exists c, Rev1.Accept keys_sorted test_conn = Ret (inr c) /\
  exists rest,
    Rev1.reader c = bytes (last_value (Rev1.env c) "REQUEST_METHOD" +:+ " " +:+
                           last_value (Rev1.env c) "REQUEST_URI" +:+ " HTTP/1.0" +:+ CRLF)
                    ++ rest.
Proof.
  eexists. split; [vm_compute; reflexivity|].
  apply (Rev1_request_line_fixed keys_sorted test_conn). vm_compute. reflexivity.
Defined.

(** On the frame of the test the earlier revision has copied the 8 bytes
    of the body to the end of the buffer and has left none on the
    connection; [Read] then serves the buffer and ends with [io.EOF]. *)
Example Rev1_body_copied :
  exists c,
    Rev1.Accept keys_sorted test_conn = Ret (inr c) /\
    (exists pre, Rev1.reader c = pre ++ test_body) /\
    pending (Rev1.writer c) = [] /\
    Rev1.Read 4096 c = (Rev1.reader c, None, Rev1.mk_Conn (Rev1.env c) [] (Rev1.writer c)).
Proof.
  eexists. split; [vm_compute; reflexivity|]. split.
  - match goal with
    | |- exists pre, ?r = pre ++ _ => exists (take (length r - 8) r)
    end.
    vm_compute. reflexivity.
  - split; [reflexivity|]. vm_compute. reflexivity.
Qed.

(** ** Examples of the spec *)

Example Cookie_twice :
  key_lines (<["HTTP_COOKIE" := ["a=1"; "b=2"]]> ∅) "HTTP_COOKIE"
  = ["Cookie: a=1" +:+ CRLF; "Cookie: b=2" +:+ CRLF].
Proof. reflexivity. Qed.

Example SERVER_PORT_of_host :
  trailingPort "example.com:8443" = Some "8443" /\ trailingPort "example.com" = None.
Proof. split; reflexivity. Qed.

Example SERVER_PORT_in_header :
  build_header test_World test_request !! "SERVER_PORT" = Some ["8443"] /\
  build_header test_World test_request !! "CONTENT_TYPE" = Some ["text/plain"] /\
  build_header test_World test_request !! "HTTP_CONTENT_TYPE" = Some ["text/plain"].
Proof. repeat split; vm_compute; reflexivity. Qed.

(** ** The claims *)

(** Claim C1, as stated, fails: the empty map is a map with unique keys,
    and the frame that [ServeHTTP] writes for it and an empty body does not
    decode to it; the goroutine ends with the error "no protocol
    specified". *)
Lemma round_trip_empty_map_fails :
  ~ (forall (W : World) (r : range_order) (header : gmap string (list string))
            (body : list (list byte)),
       range_ok (range_size W) -> range_ok (range_write W) -> range_ok r ->
       exists c, Accept_go r (Accept (mk_net_Conn (frame_writes W header body) false)) = Ret c
                 /\ err c = None /\ env c = header
                 /\ concat (pending (netConn c)) = concat body).
Proof.
  intros H.
  destruct (H test_World keys_sorted ∅ [] range_ok_keys_reversed range_ok_keys_sorted
              range_ok_keys_sorted) as (c & Hc & He & _).
  vm_compute in Hc. injection Hc as <-. discriminate He.
Qed.

(** Claim C1, amended: for every map [header] whose lists of values are not
    empty, whose block is at most 65535 bytes long and whose last
    [SERVER_PROTOCOL] value is not empty, and for every body, the frame
    that [ServeHTTP] writes, in whatever order its two loops visit the
    keys, followed by the body, decodes without error to [c.env = header],
    and leaves exactly the bytes of the body on the connection; this for
    every way the transport cuts the bytes into reads, as long as the first
    read gives the four bytes of the header. *)
Theorem frame_round_trip (W : World) (r : range_order)
    (header : gmap string (list string)) (body p : list (list byte)) :
  range_ok (range_size W) -> range_ok (range_write W) -> range_ok r ->
  frame_length header <= 65535 ->
  values_nonempty header ->
  last_value header "SERVER_PROTOCOL" <> "" ->
  concat p = concat (frame_writes W header body) ->
  head_in_first_chunk p ->
  exists c, Accept_go r (Accept (mk_net_Conn p false)) = Ret c
            /\ err c = None /\ env c = header
            /\ concat (pending (netConn c)) = concat body
            /\ readych c = [true].
Proof.
  intros Hs Hw Hr Hlen Hne Hproto Hcat Hhead.
  destruct (frame_writes_frame W header body Hs Hw Hlen) as [Hf Hb].
  rewrite Hf in Hcat.
  destruct (Accept_go_frame r p x00 x00 _ _ Hb Hhead Hcat) as (fd & Hrest & _ & Hgo).
  cbv zeta in Hgo.
  set (st := record_vars (header_vars (range_write W header) header) no_vars) in *.
  assert (Henv : c_env st = header) by (apply record_vars_range; assumption).
  assert (Hcap : captured st) by (apply record_vars_captured, captured_no_vars).
  destruct Hcap as (_ & _ & Hp). rewrite Henv in Hp.
  rewrite decide_False in Hgo by congruence.
  rewrite Henv in Hgo.
  destruct (header_rounds_env r header (bytes (request_line st)) 0 Hr Hne) as (cl & Hh).
  rewrite Hh in Hgo. rewrite bind_Ret in Hgo.
  eexists. split; [exact Hgo|]. simpl. auto.
Qed.

Lemma frame_round_trip_witness :
  exists c, Accept_go keys_sorted
              (Accept (mk_net_Conn (frame_writes test_World cookie_header [bytes "body"]) false))
            = Ret c
            /\ err c = None /\ env c = cookie_header
            /\ concat (pending (netConn c)) = concat [bytes "body"]
            /\ readych c = [true].
Proof.
  apply (frame_round_trip test_World keys_sorted cookie_header [bytes "body"]).
  - exact range_ok_keys_reversed.
  - exact range_ok_keys_sorted.
  - exact range_ok_keys_sorted.
  - vm_compute. discriminate.
  - apply values_nonempty_check. vm_compute. reflexivity.
  - vm_compute. discriminate.
  - reflexivity.
  - eexists _, _. split; [reflexivity|]. simpl. lia.
Defined.

(** Claim C2: the frame with [blockSize] 4 whose first key length is 65535
    makes [i+kl] wrap around to 1; the test [i+kl > len(envbuf)] lets it
    pass and the slice [envbuf[2:1]] panics, whatever the order of
    [range]. *)
Theorem key_length_wraps_and_panics (r : range_order) :
  Accept_go r (Accept (mk_net_Conn [[x00; x04; x00; x00; xff; xff; x41; x41]] false))
  = Panics (SliceBoundsOutOfRange 2 1 4).
Proof. reflexivity. Qed.







(** Claim C5: a [Read] that starts before the goroutine has failed never
    returns.  On the frame with an empty block the consumer enters [Read],
    finds the connection neither ready nor in error and goes to wait on
    [c.readych]; the goroutine then fails: it sets [c.err], closes the
    connection and ends without a send; nothing can run any more, and the
    consumer is still waiting. *)
Theorem Read_waits_forever (r : range_order) (n : nat) :
  exists s,
    rtc (step r)
        (mk_system (Accept (mk_net_Conn [[x00; x00; x00; x00]] false)) true Idle) s
    /\ decoding s = false /\ cons s = Waiting n
    /\ err (conn s) = Some invalid_protocol /\ readych (conn s) = []
    /\ forall s', ~ step r s s'.
Proof.
  eexists. split.
  - eapply rtc_l; [apply (step_wait r _ _ n); reflexivity|].
    eapply rtc_l; [apply step_decode; reflexivity|]. apply rtc_refl.
  - simpl. repeat split; try reflexivity.
    intros s' Hstep. inversion Hstep; subst. discriminate.
Qed.



(** Claim C6, which the code breaks.  The source reads the header with one
    [fd.Read(head[:])] and drops its count, where the block is read with
    [io.ReadFull]: when the first [Read] returns two bytes of the header,
    [head[2]] and [head[3]] stay zero and the block is taken two bytes
    early.  The frame [shifted_frame] has no variable [SERVER_PROTOCOL];
    delivered whole it is rejected with "no protocol specified", but
    delivered with a first [Read] of two bytes it is accepted: the loop
    finds a var [SERVER_PROTOCOL] with the value HTTP/1.1, and the
    goroutine writes a preamble, sends the signal and leaves the connection
    open. *)
Theorem short_head_Read_accepts_no_protocol :
  (forall k v, (k, v) ∈ shifted_vars -> k <> "SERVER_PROTOCOL") /\
  concat (pending short_head_conn) = shifted_frame /\
  (exists c0,
     Accept_go keys_sorted (Accept (mk_net_Conn [shifted_frame] false)) = Ret c0 /\
     err c0 = Some invalid_protocol /\ closed (netConn c0) = true /\ reader c0 = []) /\
  exists c,
    Accept_go keys_sorted (Accept short_head_conn) = Ret c /\
    err c = None /\ closed (netConn c) = false /\ readych c = [true] /\
    env c !! "SERVER_PROTOCOL" = Some ["HTTP/1.1"] /\
    reader c = bytes ("  HTTP/1.1" +:+ CRLF +:+ "SERVER_PROTOCOL: HTTP/1.1" +:+ CRLF
                      +:+ ": A" +:+ CRLF +:+ CRLF).
Proof.
  split.
  { intros k v Hin. unfold shifted_vars in Hin.
    apply elem_of_cons in Hin. destruct Hin as [[= -> ->]|Hin]; [discriminate|].
    apply elem_of_cons in Hin. destruct Hin as [[= -> ->]|Hin]; [discriminate|].
    apply elem_of_nil in Hin. destruct Hin. }
  split; [vm_compute; reflexivity|].
  split.
  { eexists. split; [vm_compute; reflexivity|]. repeat split. }
  eexists. split; [vm_compute; reflexivity|].
  split; [reflexivity|]. split; [reflexivity|]. split; [reflexivity|].
  split; vm_compute; reflexivity.
Qed.

(** Claim C7: a [Read] with an empty [b], which [net.Conn] allows, while the
    buffer still holds the preamble: [bytes.Buffer.Read] returns 0, the
    test [n == 0] sets [hdrdone], and from then on [Read] serves the
    transport: the next [Read] returns the body, and the preamble, of
    which no byte was delivered, is lost. *)
Theorem empty_Read_loses_preamble :
  exists c c',
    Accept_go keys_sorted (Accept test_conn) = Ret c /\
    err c = None /\ reader c <> [] /\
    Reads [0%nat; 8%nat] c = Some (test_body, c') /\
    hdrdone c' = true /\ reader c' = reader c.
Proof.
  eexists _, _. split; [vm_compute; reflexivity|].
  split; [reflexivity|]. split; [discriminate|].
  split; [vm_compute; reflexivity|]. split; reflexivity.
Qed.





(** A run of the goroutine that has the header from its first [Read] and
    ends without error: the header, the block of the size that the header
    declares and the variables of the record loop are those of the bytes
    of the stream, however the stream is cut into reads. *)
Lemma Accept_go_ok_head (r : range_order) p c :
  range_ok r -> head_in_first_chunk p ->
  Accept_go r (Accept (mk_net_Conn p false)) = Ret c -> err c = None ->
  exists m1 lo hi m2 envbuf rest i st,
    concat p = [m1; lo; hi; m2] ++ envbuf ++ rest /\
    len envbuf = LittleEndian_Uint16 lo hi /\
    scan (S (length envbuf)) envbuf (len envbuf) 0 no_vars = Ret (Break i st) /\
    env c = c_env st /\
    reader c = bytes (request_line st)
               ++ lines_bytes (r (c_env st) ≫= key_lines (c_env st)) ++ bytes CRLF.
Proof.
  intros Hr Hhead Hgo Herr.
  assert (Hcat : exists m1 lo hi m2 tl, concat p = [m1; lo; hi; m2] ++ tl).
  { destruct Hhead as (ch & p' & -> & Hc).
    destruct ch as [|x0 [|x1 [|x2 [|x3 ch]]]]; simpl in Hc; try lia.
    simpl. eauto 6. }
  destruct Hcat as (m1 & lo & hi & m2 & tl & Hcat).
  destruct (read_head_frame p m1 lo hi m2 tl Hhead Hcat) as (p1 & Hrh & Hp1).
  unfold Accept_go in Hgo. simpl netConn in Hgo. rewrite Hrh in Hgo.
  change (index [m1; lo; hi; m2] 1) with (Ret lo) in Hgo.
  change (index [m1; lo; hi; m2] 2) with (Ret hi) in Hgo.
  rewrite !bind_Ret in Hgo. cbv zeta in Hgo.
  pose proof (Uint16_range lo hi) as Hsz.
  destruct (io_ReadFull (Z.to_nat (LittleEndian_Uint16 lo hi)) (mk_net_Conn p1 false))
    as [[envbuf e] fd2] eqn:Hrf.
  destruct e as [e|].
  { injection Hgo as <-. discriminate. }
  apply io_ReadFull_stream in Hrf. destruct Hrf as (Hs2 & Hl2 & Hc2).
  simpl in Hs2. rewrite Hp1 in Hs2.
  assert (Hlen : len envbuf = LittleEndian_Uint16 lo hi) by (unfold len; lia).
  rewrite <- Hlen in Hgo.
  change (mk_vars "" "" "" (env (Accept (mk_net_Conn p false)))) with no_vars in Hgo.
  destruct (scan (S (length envbuf)) envbuf (len envbuf) 0 no_vars) as [sc| |] eqn:Hsc;
    try discriminate.
  rewrite bind_Ret in Hgo. destruct sc as [i st|st].
  2:{ injection Hgo as <-. discriminate. }
  destruct (decide (reqProtocol st = "")) as [Hp|Hp].
  { injection Hgo as <-. discriminate. }
  assert (Hne : values_nonempty (c_env st)).
  { eapply (scan_keeps (fun st => values_nonempty (c_env st)));
      [apply record_var_nonempty| | |exact Hsc|apply values_nonempty_no_vars]; lia. }
  destruct (header_rounds_env r (c_env st)
              (Fprintf (reader (Accept (mk_net_Conn p false)))
                 (reqMethod st +:+ " " +:+ reqURI st +:+ " " +:+ reqProtocol st +:+ CRLF))
              0 Hr Hne) as (cl & Hh).
  rewrite Hh in Hgo. rewrite bind_Ret in Hgo. injection Hgo as <-.
  exists m1, lo, hi, m2, envbuf, (concat (pending fd2)), i, st.
  split; [rewrite Hcat, Hs2; reflexivity|]. split; [exact Hlen|].
  split; [exact Hsc|]. split; [reflexivity|].
  unfold Fprintf, request_line. simpl. rewrite <- app_assoc. reflexivity.
Qed.



(** The header that the goroutine holds after its one [Read], on a stream
    that starts with the header of an empty block, however the stream is
    cut into reads: bytes 1 and 2 are zero, from the stream or from the
    zeroes of [head], and at most four bytes have been taken. *)
Lemma read_head_empty_block p m1 m2 (rest : list byte) :
  concat p = [m1; x00; x00; m2] ++ rest ->
  exists a b fd1 (n : nat),
    read_head (mk_net_Conn p false) = ([a; x00; x00; b], fd1) /\
    closed fd1 = false /\ (n <= 4)%nat /\
    concat (pending fd1) = drop n (concat p) /\
    (head_in_first_chunk p -> n = 4%nat).
Proof.
  intros Hcat. destruct p as [|ch p']; [discriminate|].
  unfold read_head, net_Read. cbn [closed pending].
  destruct ch as [|x0 [|x1 [|x2 [|x3 ch]]]]; simpl in Hcat.
  - exists x00, x00, (mk_net_Conn p' false), 0%nat. simpl.
    repeat split; try lia. intros (c0 & q & [= <- <-] & Hc). simpl in Hc. lia.
  - exists x0, x00, (mk_net_Conn p' false), 1%nat. simpl.
    repeat split; try lia. intros (c0 & q & [= <- <-] & Hc). simpl in Hc. lia.
  - destruct p' as [|q0 p'']; simpl in Hcat; [discriminate|].
    assert (x1 = x00) as -> by congruence.
    exists x0, x00, (mk_net_Conn (q0 :: p'') false), 2%nat. simpl.
    repeat split; try lia. intros (c0 & q & [= <- <-] & Hc). simpl in Hc. lia.
  - assert (x1 = x00) as -> by congruence. assert (x2 = x00) as -> by congruence.
    exists x0, x00, (mk_net_Conn p' false), 3%nat. simpl.
    repeat split; try lia. intros (c0 & q & [= <- <-] & Hc). simpl in Hc. lia.
  - assert (x1 = x00) as -> by congruence. assert (x2 = x00) as -> by congruence.
    exists x0, x3, (mk_net_Conn (match ch with [] => p' | _ :: _ => ch :: p' end) false), 4%nat.
    simpl. split; [destruct ch; reflexivity|].
    repeat split; try lia. destruct ch; reflexivity.
Qed.

(** What the goroutine does once the header it holds declares a size of
    0: it reads no block, the loop breaks in its first round, and the test
    of [reqProtocol] fails. *)
Lemma Accept_go_size_0 (r : range_order) fd m1 lo hi m2 fd1 :
  read_head fd = ([m1; lo; hi; m2], fd1) ->
  LittleEndian_Uint16 lo hi = 0 ->
  Accept_go r (Accept fd)
  = Ret (mk_Conn (net_Close fd1) ∅ [] false false [] (Some invalid_protocol)).
Proof.
  intros Hh Hz. unfold Accept_go. simpl netConn. rewrite Hh.
  change (index [m1; lo; hi; m2] 1) with (Ret lo).
  change (index [m1; lo; hi; m2] 2) with (Ret hi).
  rewrite !bind_Ret. cbv zeta. rewrite Hz. reflexivity.
Qed.



(** * Further properties of the code *)

(** ** The record loop in front of other bytes *)

Lemma scan_prefix recs : forall fuel pre st suf,
  suf <> [] ->
  len (pre ++ block_of recs ++ suf) <= 65535 ->
  scan (length recs + fuel) (pre ++ block_of recs ++ suf)
       (len (pre ++ block_of recs ++ suf)) (len pre) st
  = scan fuel (pre ++ block_of recs ++ suf)
         (len (pre ++ block_of recs ++ suf)) (len pre + len (block_of recs))
         (record_vars recs st).
Proof.
  induction recs as [|kv recs IH]; intros fuel pre st suf Hsuf Hlen.
  - change (block_of []) with (@nil byte). unfold len at 4. simpl. rewrite Z.add_0_r.
    reflexivity.
  - rewrite block_of_cons in *. rewrite <- app_assoc in *.
    change (length (kv :: recs) + fuel)%nat with (S (length recs + fuel)).
    rewrite scan_record by exact Hlen.
    rewrite geb_false.
    2:{ rewrite !len_app. pose proof (len_nonneg (block_of recs)).
        assert (0 < len suf) by (destruct suf; [done|unfold len; simpl; lia]). lia. }
    replace (len pre + len (record_bytes kv.1 kv.2))
      with (len (pre ++ record_bytes kv.1 kv.2)) by apply len_app.
    rewrite (app_assoc pre) in *.
    rewrite IH by assumption.
    rewrite !len_app. f_equal. lia.
Qed.

Lemma Accept_go_block (r : range_order) p m1 lo hi m2 envbuf (rest : list byte) :
  head_in_first_chunk p ->
  concat p = [m1; lo; hi; m2] ++ envbuf ++ rest ->
  LittleEndian_Uint16 lo hi = len envbuf ->
  exists fd, concat (pending fd) = rest /\ closed fd = false /\
    Accept_go r (Accept (mk_net_Conn p false)) =
      (sc ← scan (S (length envbuf)) envbuf (len envbuf) 0 no_vars; Accept_finish r fd sc).
Proof.
  intros Hhead Hcat Hsz.
  destruct (read_head_frame p m1 lo hi m2 (envbuf ++ rest) Hhead Hcat) as (p1 & Hrh & Hp1).
  destruct (io_ReadFull_enough (Z.to_nat (len envbuf)) p1 envbuf rest Hp1) as (p2 & Hrf & Hp2).
  { unfold len. lia. }
  exists (mk_net_Conn p2 false). split; [exact Hp2|]. split; [reflexivity|].
  unfold Accept_go. simpl netConn. rewrite Hrh.
  change (index [m1; lo; hi; m2] 1) with (Ret lo).
  change (index [m1; lo; hi; m2] 2) with (Ret hi). rewrite !bind_Ret.
  cbv zeta. rewrite Hsz, Hrf.
  change (mk_vars "" "" "" (env (Accept (mk_net_Conn p false)))) with no_vars.
  destruct (scan (S (length envbuf)) envbuf (len envbuf) 0 no_vars) as [[i st|st]| |];
    reflexivity.
Qed.

Lemma Accept_finish_Break (r : range_order) fd i st :
  range_ok r -> values_nonempty (c_env st) ->
  Accept_finish r fd (Break i st) =
    Ret (if decide (reqProtocol st = "")
         then mk_Conn (net_Close fd) (c_env st) [] false false [] (Some invalid_protocol)
         else mk_Conn fd (c_env st)
                (bytes (request_line st)
                 ++ lines_bytes (r (c_env st) ≫= key_lines (c_env st)) ++ bytes CRLF)
                false false [true] None).
Proof.
  intros Hr Hne. unfold Accept_finish.
  destruct (decide (reqProtocol st = "")); [reflexivity|].
  destruct (header_rounds_env r (c_env st) (bytes (request_line st)) 0 Hr Hne) as (cl & ->).
  rewrite bind_Ret, <- app_assoc. reflexivity.
Qed.

(** ** The values of a variable *)

Lemma values_of_cons k k' v recs :
  values_of k ((k', v) :: recs) = if decide (k' = k) then v :: values_of k recs else values_of k recs.
Proof.
  unfold values_of. rewrite filter_cons. simpl.
  destruct (decide (k' = k)); reflexivity.
Qed.

Lemma record_vars_values recs : forall st k,
  c_env (record_vars recs st) !! k =
    match values_of k recs with
    | [] => c_env st !! k
    | vs => Some (match c_env st !! k with Some val => val | None => [] end ++ vs)
    end.
Proof.
  induction recs as [|[k' v] recs IH]; intros st k; [reflexivity|].
  change (record_vars ((k', v) :: recs) st) with (record_vars recs (record_var k' v st)).
  rewrite IH, values_of_cons, record_var_env.
  destruct (decide (k' = k)) as [->|Hne].
  - rewrite lookup_insert_eq. destruct (values_of k recs) as [|v' vs].
    + reflexivity.
    + rewrite <- app_assoc. reflexivity.
  - rewrite lookup_insert_ne by done. reflexivity.
Qed.

Lemma env_values recs k :
  c_env (record_vars recs no_vars) !! k =
    match values_of k recs with [] => None | vs => Some vs end.
Proof.
  rewrite record_vars_values. simpl. rewrite lookup_empty.
  destruct (values_of k recs); reflexivity.
Qed.



(** ** A byte after the last var *)

Lemma scan_stray_byte recs (x : byte) st :
  len (block_of recs) + 1 <= 65535 ->
  scan (S (length (block_of recs ++ [x]))) (block_of recs ++ [x])
       (len (block_of recs ++ [x])) 0 st
  = Ret (Break (len (block_of recs)) (record_vars recs st)).
Proof.
  intros Hlen. pose proof (length_block_of recs) as Hl.
  pose proof (scan_prefix recs (S (length (block_of recs ++ [x])) - length recs) [] st [x])
    as H.
  simpl app in H. change (len (@nil byte)) with 0 in H. rewrite Z.add_0_l in H.
  replace (length recs + (S (length (block_of recs ++ [x])) - length recs))%nat
    with (S (length (block_of recs ++ [x]))) in H by (rewrite length_app; simpl; lia).
  rewrite H; [|done|rewrite len_app; unfold len at 2; simpl; lia].
  replace (S (length (block_of recs ++ [x])) - length recs)%nat
    with (S (length (block_of recs ++ [x]) - length recs))
    by (rewrite length_app; simpl; lia).
  rewrite scan_S.
  replace (uint16 (len (block_of recs) + 1) >=? uint16 (len (block_of recs ++ [x]))) with true.
  - reflexivity.
  - pose proof (len_nonneg (block_of recs)). rewrite len_app. change (len [x]) with 1.
    rewrite !uint16_small by lia. symmetry. rewrite Z.geb_leb. apply Z.leb_le. lia.
Qed.



(** ** A block that ends inside a var *)

Lemma gtb_true (a b : Z) : b < a -> (a >? b) = true.
Proof. intros. rewrite Z.gtb_ltb. apply Z.ltb_lt. lia. Qed.

Lemma geb_true (a b : Z) : b <= a -> (a >=? b) = true.
Proof. intros. rewrite Z.geb_leb. apply Z.leb_le. lia. Qed.

Lemma scan_truncated fuel pre k v (n : nat) envsize st :
  len (pre ++ record_bytes k v) <= 65535 ->
  (2 <= n < length (record_bytes k v))%nat ->
  scan (S fuel) (pre ++ take n (record_bytes k v)) envsize (len pre) st
  = Ret (OutOfRange st).
Proof.
  intros Hlen [Hn2 Hn].
  pose proof (len_nonneg pre) as Hp.
  pose proof (len_nonneg (bytes k)) as Hk. pose proof (len_nonneg (bytes v)) as Hv.
  rewrite len_app, len_record_bytes in Hlen.
  pose proof (len_record_bytes k v) as Hrb. unfold len at 1 in Hrb.
  set (a0 := Z_byte (len (bytes k))). set (a1 := Z_byte (Z.shiftr (len (bytes k)) 8)).
  set (c0 := Z_byte (len (bytes v))). set (c1 := Z_byte (Z.shiftr (len (bytes v)) 8)).
  assert (Erb : record_bytes k v = a0 :: a1 :: bytes k ++ c0 :: c1 :: bytes v).
  { unfold record_bytes, LittleEndian_PutUint16.
    rewrite (uint16_small (len (bytes k))) by lia.
    rewrite (uint16_small (len (bytes v))) by lia. reflexivity. }
  assert (Hmb : Z.of_nat n < 4 + len (bytes k) + len (bytes v)) by lia.
  destruct n as [|[|m]]; [lia|lia|].
  rewrite Erb in *. cbn [take]. cbn [length] in Hn.
  set (T := take m (bytes k ++ c0 :: c1 :: bytes v)).
  assert (HT : len T = Z.of_nat m).
  { unfold T, len. rewrite length_take, length_app. cbn [length]. unfold len in Hmb. lia. }
  set (envbuf := pre ++ a0 :: a1 :: T).
  assert (HL : len envbuf = len pre + 2 + Z.of_nat m).
  { unfold envbuf, len in *. rewrite length_app. cbn [length]. lia. }
  assert (Ka : LittleEndian_Uint16 a0 a1 = len (bytes k)) by (apply Uint16_PutUint16; lia).
  assert (Kc : LittleEndian_Uint16 c0 c1 = len (bytes v)) by (apply Uint16_PutUint16; lia).
  assert (I0 : index envbuf (len pre) = Ret a0) by (apply index_middle; reflexivity).
  assert (I1 : index envbuf (len pre + 1) = Ret a1).
  { unfold envbuf. change (pre ++ a0 :: a1 :: T) with (pre ++ [a0] ++ a1 :: T).
    rewrite app_assoc. apply index_middle. len_solve. }
  rewrite scan_S, HL.
  rewrite (uint16_small (len pre + 2 + Z.of_nat m)) by lia.
  rewrite (uint16_small (len pre + 1)) by lia.
  rewrite geb_false by lia.
  rewrite I0, bind_Ret, I1, bind_Ret. cbv zeta. rewrite Ka.
  rewrite (uint16_small (len pre + 2)) by lia.
  rewrite (uint16_small (len pre + 2 + len (bytes k))) by lia.
  destruct (Z_lt_dec (Z.of_nat m) (len (bytes k))) as [Hlt|Hge].
  { rewrite gtb_true by lia. reflexivity. }
  rewrite gtb_false by lia.
  assert (ET : T = bytes k ++ take (m - length (bytes k)) (c0 :: c1 :: bytes v)).
  { unfold T. rewrite take_app_ge by (unfold len in Hge; lia). reflexivity. }
  assert (S2 : slice envbuf (len pre + 2) (len pre + 2 + len (bytes k)) = Ret (bytes k)).
  { unfold envbuf. rewrite ET.
    change (pre ++ a0 :: a1 :: bytes k ++ ?x) with (pre ++ [a0; a1] ++ bytes k ++ x).
    rewrite app_assoc. apply slice_middle; len_solve. }
  rewrite S2, bind_Ret.
  rewrite (uint16_small (len pre + 2 + len (bytes k) + 1)) by lia.
  destruct (Z_le_dec (Z.of_nat m) (len (bytes k) + 1)) as [Hle|Hgt].
  { rewrite geb_true by lia. reflexivity. }
  rewrite geb_false by lia.
  assert (Hm : exists m', (m - length (bytes k) = S (S m'))%nat).
  { exists (m - length (bytes k) - 2)%nat. unfold len in Hgt. lia. }
  destruct Hm as (m' & Hm'). rewrite Hm' in ET. cbn [take] in ET.
  assert (I3 : index envbuf (len pre + 2 + len (bytes k)) = Ret c0).
  { unfold envbuf. rewrite ET.
    change (pre ++ a0 :: a1 :: bytes k ++ c0 :: ?x) with (pre ++ [a0; a1] ++ bytes k ++ c0 :: x).
    rewrite !app_assoc. apply index_middle. len_solve. }
  assert (I4 : index envbuf (len pre + 2 + len (bytes k) + 1) = Ret c1).
  { unfold envbuf. rewrite ET.
    change (pre ++ a0 :: a1 :: bytes k ++ c0 :: c1 :: ?x)
      with (pre ++ [a0; a1] ++ bytes k ++ [c0] ++ c1 :: x).
    rewrite !app_assoc. apply index_middle. len_solve. }
  rewrite I3, bind_Ret, I4, bind_Ret. rewrite Kc.
  rewrite (uint16_small (len pre + 2 + len (bytes k) + 2)) by lia.
  rewrite (uint16_small (len pre + 2 + len (bytes k) + 2 + len (bytes v))) by lia.
  rewrite gtb_true by lia. reflexivity.
Qed.



(** ** A length that makes the cursor wrap around *)



(** ** A stream that ends inside the block *)

Lemma ReadFull_loop_eof (need : nat) (got : list byte) (p : list (list byte)) :
  (length (concat p) < need)%nat ->
  ReadFull_loop need got p =
    (got ++ concat p,
     Some (match got ++ concat p with [] => EOF | _ => ErrUnexpectedEOF end), []).
Proof.
  revert need got. induction p as [|c p IH]; intros need got Hlen.
  - destruct need; [simpl in Hlen; lia|]. simpl. rewrite app_nil_r. reflexivity.
  - destruct need as [|n]; [lia|].
    cbn [ReadFull_loop]. simpl in Hlen. rewrite length_app in Hlen.
    destruct (decide (length c <= S n)%nat) as [Hle|Hgt]; [|lia].
    rewrite IH by lia. simpl. rewrite <- app_assoc. reflexivity.
Qed.



(** ** Success or failure, nothing in between *)

Lemma header_rounds_append env keys : forall buf cl buf' cl',
  header_rounds env (buf, cl) keys = Ret (buf', cl') ->
  exists written, buf' = buf ++ written.
Proof.
  induction keys as [|i keys IH]; intros buf cl buf' cl' H.
  - injection H as <- <-. exists []. rewrite app_nil_r. reflexivity.
  - cbn [header_rounds] in H.
    destruct (header_round env (buf, cl) i) as [[buf1 cl1]| |] eqn:Hr; try discriminate.
    rewrite bind_Ret in H. apply IH in H. destruct H as (w2 & ->).
    unfold header_round in Hr.
    destruct (decide (i = "CONTENT_LENGTH")).
    + destruct (env !! i) as [[|v0 vals]|]; try discriminate.
      injection Hr as <- <-.
      destruct (strconv_ParseInt v0 >? 0).
      * unfold Fprintf. rewrite <- app_assoc. eauto.
      * eauto.
    + injection Hr as <- <-. rewrite fold_header_lines, <- app_assoc. eauto.
Qed.

Lemma Accept_go_states (r : range_order) fd c :
  Accept_go r (Accept fd) = Ret c ->
  hdrdone c = false /\ ready c = false /\
  ((err c = None /\ closed (netConn c) = false /\ readych c = [true] /\
    exists buf, reader c = buf ++ bytes CRLF)
   \/
   (err c <> None /\ closed (netConn c) = true /\ readych c = [] /\ reader c = [])).
Proof.
  destruct (closed fd) eqn:Hc.
  { unfold Accept_go, read_head, net_Read. simpl netConn. rewrite Hc.
    intros [= <-]. simpl. split; [done|]. split; [done|]. right. auto. }
  unfold Accept_go, read_head. simpl netConn.
  destruct (net_Read 4 fd) as [[hd e0] fd1] eqn:Hrd.
  destruct (index_cases (hd ++ replicate (4 - length hd) x00) 1) as [[b0 I0]|[q I0]];
    rewrite I0; [|discriminate].
  destruct (index_cases (hd ++ replicate (4 - length hd) x00) 2) as [[b1 I1]|[q I1]];
    rewrite I1; [|discriminate].
  rewrite !bind_Ret. cbv zeta.
  set (envsize := LittleEndian_Uint16 b0 b1) in *.
  destruct (io_ReadFull (Z.to_nat envsize) fd1) as [[envbuf e] fd2] eqn:Hrf.
  destruct e as [e|].
  { intros [= <-]. simpl. split; [done|]. split; [done|]. right. auto. }
  change (mk_vars "" "" "" (env (Accept fd))) with no_vars.
  destruct (scan (S (length envbuf)) envbuf envsize 0 no_vars) as [sc| |] eqn:Hsc;
    try discriminate.
  rewrite bind_Ret. destruct sc as [i st|st].
  2:{ intros [= <-]. simpl. split; [done|]. split; [done|]. right. auto. }
  destruct (decide (reqProtocol st = "")) as [Hp|Hp].
  { intros [= <-]. simpl. split; [done|]. split; [done|]. right. auto. }
  destruct (header_rounds (c_env st) _ (r (c_env st))) as [[buf cl]| |] eqn:Hh;
    try discriminate.
  rewrite bind_Ret. intros [= <-]. simpl. split; [done|]. split; [done|]. left.
  split; [done|]. split; [|split; [done|eauto]].
  apply net_Read_stream in Hrd. destruct Hrd as (_ & _ & Hc1).
  apply io_ReadFull_stream in Hrf. destruct Hrf as (_ & Hl2 & Hc2).
  rewrite Hc2, Hc1. exact Hc.
Qed.



(** ** [Conn.Read] and [Conn.Write] *)

(** Reads with buffers that are not empty, on a connection whose goroutine
    has signalled or failed, never wait and never repeat, skip or reorder a
    byte: what they return, put end to end, followed by what the connection
    still has to deliver, is what it had to deliver before: the buffer,
    then the bytes of the transport. *)
Theorem Reads_deliver_in_order (ns : list nat) (c : Conn) :
  Forall (fun n => n <> O) ns -> buffer_served c -> signalled c ->
  exists bs c', Reads ns c = Some (bs, c') /\ bs ++ to_deliver c' = to_deliver c.
Proof. apply Reads_in_order. Qed.

Lemma Reads_deliver_in_order_witness :
  exists bs c',
    Reads [5%nat; 300%nat; 4%nat]
      (mk_Conn (mk_net_Conn [test_body] false) ∅ (bytes "GET / HTTP/1.1") false false [true] None)
    = Some (bs, c') /\
    bs ++ to_deliver c'
    = to_deliver
        (mk_Conn (mk_net_Conn [test_body] false) ∅ (bytes "GET / HTTP/1.1") false false [true]
           None).
Proof.
  apply (Reads_deliver_in_order [5%nat; 300%nat; 4%nat]).
  - repeat constructor; discriminate.
  - intros H. discriminate H.
  - right. left. discriminate.
Defined.

(** An error that [Read] returns is kept in [c.err]: every later [Read]
    returns it again with no byte, and every [Write] returns it and sends
    nothing. *)
Theorem Read_error_is_sticky (n : nat) (c : Conn) b e c' :
  Read n c = Returns b (Some e) c' ->
  err c' = Some e /\
  (forall m, Read m c' = Returns [] (Some e) c') /\
  (forall b' out, Write b' c' out = (O, Some e, out)).
Proof.
  intros H.
  assert (He : err c' = Some e).
  { unfold Read in H.
    assert (Hrest : forall c0, (let '(b, e, c) := Read_rest n c0 in Returns b e c)
                               = Returns b (Some e) c' -> err c' = Some e).
    { clear H. intros c0. unfold Read_rest.
      destruct (err c0) as [e0|] eqn:He0.
      { intros [= <- <- <-]. exact He0. }
      destruct (hdrdone c0) eqn:Hd.
      - cbv beta iota zeta. rewrite Hd.
        destruct (net_Read n (netConn c0)) as [[b1 e1] fd].
        intros [= <- <- <-]. reflexivity.
      - destruct (Buffer_Read n (reader c0)) as [[b1 e1] buf] eqn:Hb.
        cbv beta iota zeta. cbn [hdrdone].
        destruct (bool_decide (length b1 = O) || bool_decide (e1 <> None)) eqn:Hh.
        + cbn [netConn]. destruct (net_Read n (netConn c0)) as [[b2 e2] fd].
          intros [= <- <- <-]. reflexivity.
        + intros [= <- -> <-]. apply orb_false_iff in Hh. destruct Hh as [_ Hh].
          apply bool_decide_eq_false in Hh. exfalso. apply Hh. discriminate. }
    destruct (Read_waits c).
    - destruct (readych c) as [|v ch]; [discriminate|]. eapply Hrest, H.
    - eapply Hrest, H. }
  split; [exact He|]. split.
  - intros m. unfold Read, Read_waits, Read_rest. rewrite He.
    rewrite bool_decide_eq_false_2 by discriminate. rewrite andb_false_r. reflexivity.
  - intros b' out. unfold Write. rewrite He. reflexivity.
Qed.

Lemma Read_error_is_sticky_witness :
  err (mk_Conn (mk_net_Conn [] false) ∅ [] true true [] (Some EOF)) = Some EOF /\
  (forall m, Read m (mk_Conn (mk_net_Conn [] false) ∅ [] true true [] (Some EOF))
             = Returns [] (Some EOF) (mk_Conn (mk_net_Conn [] false) ∅ [] true true [] (Some EOF))) /\
  (forall b' out, Write b' (mk_Conn (mk_net_Conn [] false) ∅ [] true true [] (Some EOF)) out
                  = (O, Some EOF, out)).
Proof.
  apply (Read_error_is_sticky 1 drained_conn []). reflexivity.
Defined.

(** When the goroutine succeeds, a [Read] that was waiting for it is
    released by the signal and returns the first bytes of the preamble;
    the rest of the buffer and the transport are untouched. *)
Theorem waiting_Read_is_released (r : range_order) fd c (n : nat) :
  Accept_go r (Accept fd) = Ret c -> err c = None -> n <> O ->
  exists c',
    rtc (step r) (mk_system (Accept fd) true Idle)
                 (mk_system c' false (Got (take n (reader c)) None))
    /\ take n (reader c) <> []
    /\ reader c' = drop n (reader c) /\ netConn c' = netConn c
    /\ ready c' = true /\ readych c' = [] /\ err c' = None.
Proof.
  intros Hgo Herr Hn.
  destruct (Accept_go_states r fd c Hgo) as (Hd & Hrdy & [(_ & _ & Hch & buf & Hbuf)|(He & _)]);
    [|congruence].
  assert (Hne : reader c <> []).
  { rewrite Hbuf. intros H. apply app_eq_nil in H. destruct H as [_ H]. discriminate H. }
  assert (Hrr : Read_rest n (received c [])
                = (take n (reader c), None,
                   mk_Conn (netConn c) (env c) (drop n (reader c)) false true [] None)).
  { unfold Read_rest, received. cbn [err hdrdone reader netConn env ready readych].
    rewrite Herr, Hd. unfold Buffer_Read.
    destruct (reader c) as [|x rd] eqn:Hr; [done|].
    destruct n as [|n']; [done|]. reflexivity. }
  eexists. split.
  - eapply rtc_l; [apply (step_wait r _ _ n); reflexivity|].
    eapply rtc_l; [apply step_decode; exact Hgo|].
    eapply rtc_l; [eapply step_receive; [exact Hch|exact Hrr]|]. apply rtc_refl.
  - simpl. repeat split.
    destruct (reader c) as [|x rd]; [done|]. destruct n; [done|discriminate].
Qed.

Lemma waiting_Read_is_released_witness :
  exists c',
    rtc (step keys_sorted) (mk_system (Accept test_conn) true Idle)
                 (mk_system c' false (Got (take 4096 (reader test_decoded)) None))
    /\ take 4096 (reader test_decoded) <> []
    /\ reader c' = drop 4096 (reader test_decoded) /\ netConn c' = netConn test_decoded
    /\ ready c' = true /\ readych c' = [] /\ err c' = None.
Proof.
  apply (waiting_Read_is_released keys_sorted test_conn test_decoded 4096).
  - vm_compute. reflexivity.
  - reflexivity.
  - discriminate.
Defined.

(** ** The passenger: [trailingPort] *)

Lemma is_digit_colon : is_digit ":"%char = false.
Proof. reflexivity. Qed.

Lemma all_digits_app_colon pre s : all_digits (pre +:+ String ":"%char s) = false.
Proof.
  induction pre as [|a pre IH]; simpl.
  - reflexivity.
  - rewrite IH. apply andb_false_r.
Qed.

Lemma trailingPort_suffix pre port :
  port <> "" -> all_digits port = true ->
  trailingPort (pre +:+ String ":"%char port) = Some port.
Proof.
  intros Hne Hd. induction pre as [|a pre IH]; simpl.
  - rewrite Hd. rewrite (bool_decide_eq_false_2 (port = "")) by exact Hne. reflexivity.
  - rewrite all_digits_app_colon, andb_false_r. simpl. exact IH.
Qed.

Lemma trailingPort_Some s port :
  trailingPort s = Some port ->
  port <> "" /\ all_digits port = true /\ exists pre, s = pre +:+ String ":"%char port.
Proof.
  induction s as [|a s IH]; simpl; [discriminate|].
  destruct (bool_decide (a = ":"%char) && all_digits s && negb (bool_decide (s = ""))) eqn:Hc.
  - intros [= <-]. apply andb_true_iff in Hc. destruct Hc as [Hc Hne].
    apply andb_true_iff in Hc. destruct Hc as [Ha Hd].
    apply bool_decide_eq_true in Ha. apply negb_true_iff, bool_decide_eq_false in Hne.
    subst a. split; [exact Hne|]. split; [exact Hd|]. exists "". reflexivity.
  - intros H. destruct (IH H) as (Hne & Hd & pre & ->).
    split; [exact Hne|]. split; [exact Hd|]. exists (String a pre). reflexivity.
Qed.

(** [trailingPort] finds a port in a host exactly when the host ends with a
    colon followed by one or more decimal digits, and the port is these
    digits, whatever comes before that colon. *)
Theorem trailingPort_spec (s port : string) :
  trailingPort s = Some port <->
  port <> "" /\ all_digits port = true /\ exists pre, s = pre +:+ String ":"%char port.
Proof.
  split; [apply trailingPort_Some|].
  intros (Hne & Hd & pre & ->). apply trailingPort_suffix; assumption.
Qed.

(** ** The passenger: the size of the block *)

(** The size that [ServeHTTP] writes in the header of the frame does not
    depend on the order in which the first loop visits the keys: it is the
    length of the block modulo 65536; and the second loop writes the whole
    block, of that length, also when the length does not fit the size. *)
Theorem frame_size_any_order (r1 r2 : range_order) (header : gmap string (list string)) :
  range_ok r1 -> range_ok r2 ->
  frame_size (r1 header) header = frame_length header mod 65536 /\
  len (concat (frame_vars (r2 header) header)) = frame_length header.
Proof.
  intros H1 H2. split.
  - rewrite frame_size_len. unfold uint16. f_equal.
    apply len_block_Permutation, header_vars_Permutation, H1.
  - rewrite frame_vars_block.
    apply len_block_Permutation, header_vars_Permutation, H2.
Qed.

Lemma frame_size_any_order_witness :
  frame_size (keys_sorted cookie_header) cookie_header = frame_length cookie_header mod 65536 /\
  len (concat (frame_vars (keys_reversed cookie_header) cookie_header))
  = frame_length cookie_header.
Proof.
  apply (frame_size_any_order keys_sorted keys_reversed cookie_header).
  - exact range_ok_keys_sorted.
  - exact range_ok_keys_reversed.
Defined.

(** ** The passenger: the map [header] *)

Lemma build_header_fold W req :
  build_header W req
  = fold_left (add_http_var (Header req)) (range_reqHeader W (Header req)) (fixed_header req).
Proof. reflexivity. Qed.

Lemma add_http_vars_other reqHeader keys K : forall header,
  (forall x, K <> "HTTP_" +:+ x) ->
  fold_left (add_http_var reqHeader) keys header !! K = header !! K.
Proof.
  induction keys as [|k keys IH]; intros header HK; [reflexivity|].
  cbn [fold_left]. rewrite IH by exact HK. unfold add_http_var.
  destruct (header !! k); [reflexivity|].
  apply lookup_insert_ne. intros H. apply (HK (ToUpper_Replace k)). symmetry. exact H.
Qed.

Lemma build_header_other W req K :
  (forall x, K <> "HTTP_" +:+ x) ->
  build_header W req !! K = fixed_header req !! K.
Proof. intros HK. rewrite build_header_fold. apply add_http_vars_other, HK. Qed.

Ltac not_http := let x := fresh in let H := fresh in intros x H; discriminate H.

Ltac fixed_lookup :=
  rewrite build_header_other by not_http; unfold fixed_header;
  match goal with
  | |- context [decide (?c = "")] => destruct (decide (c = ""))
  | _ => idtac
  end;
  repeat (rewrite lookup_insert_ne by discriminate);
  rewrite ?lookup_insert_eq, ?lookup_empty; reflexivity.

(** Whatever headers the request has and in whatever order the loop visits
    them, the variables that [ServeHTTP] sets from the request line, the
    addresses and the URL keep their values in [header]: a request header is
    stored under a name that starts with [HTTP_] and cannot replace one of
    them.  [SERVER_PORT] is the port at the end of [req.Host], or 80. *)
Theorem build_header_fixed_vars (W : World) (req : Request) :
  build_header W req !! "REQUEST_METHOD" = Some [Method req] /\
  build_header W req !! "REQUEST_URI" = Some [RequestURI req] /\
  build_header W req !! "CONTENT_LENGTH" = Some [FormatInt (ContentLength req)] /\
  build_header W req !! "SERVER_PROTOCOL" = Some [Proto req] /\
  build_header W req !! "SERVER_NAME" = Some [Host req] /\
  build_header W req !! "SERVER_ADDR" = Some [RemoteAddr req] /\
  build_header W req !! "SERVER_PORT"
    = Some [match trailingPort (Host req) with Some p => p | None => "80" end] /\
  build_header W req !! "REMOTE_HOST" = Some [RemoteAddr req] /\
  build_header W req !! "REMOTE_ADDR" = Some [RemoteAddr req] /\
  build_header W req !! "SCRIPT_NAME" = Some [URL_Path req] /\
  build_header W req !! "PATH_INFO" = Some [URL_Path req] /\
  build_header W req !! "QUERY_STRING" = Some [URL_RawQuery req].
Proof. repeat split; fixed_lookup. Qed.

Lemma add_http_vars_keep reqHeader keys K : forall header,
  (forall k, k ∈ keys -> "HTTP_" +:+ ToUpper_Replace k <> K) ->
  fold_left (add_http_var reqHeader) keys header !! K = header !! K.
Proof.
  induction keys as [|k keys IH]; intros header HK; [reflexivity|].
  cbn [fold_left]. rewrite IH by (intros k' Hk'; apply HK; right; exact Hk').
  unfold add_http_var. destruct (header !! k); [reflexivity|].
  apply lookup_insert_ne. apply HK. left.
Qed.

Lemma add_http_vars_lookup reqHeader keys : forall header k vs,
  NoDup keys ->
  (forall k', k' ∈ keys -> header !! k' = None /\ forall y, k' <> "HTTP_" +:+ y) ->
  (forall k1 k2, k1 ∈ keys -> k2 ∈ keys ->
     ToUpper_Replace k1 = ToUpper_Replace k2 -> k1 = k2) ->
  k ∈ keys -> reqHeader !! k = Some vs ->
  fold_left (add_http_var reqHeader) keys header !! ("HTTP_" +:+ ToUpper_Replace k) = Some vs.
Proof.
  induction keys as [|k0 keys IH]; intros header k vs Hnd Hfresh Hinj Hin Hk.
  { apply elem_of_nil in Hin. done. }
  apply NoDup_cons in Hnd. destruct Hnd as [Hk0 Hnd].
  cbn [fold_left].
  assert (Hstep : add_http_var reqHeader header k0
                  = <["HTTP_" +:+ ToUpper_Replace k0 :=
                       match reqHeader !! k0 with Some v => v | None => [] end]> header).
  { unfold add_http_var. destruct (Hfresh k0 ltac:(left)) as [-> _]. reflexivity. }
  rewrite Hstep.
  apply elem_of_cons in Hin. destruct Hin as [->|Hin].
  - rewrite add_http_vars_keep.
    + rewrite lookup_insert_eq, Hk. reflexivity.
    + intros k' Hk' Heq. injection Heq as Heq.
      assert (k' = k0) by (apply Hinj; [right; exact Hk'|left|exact Heq]).
      subst k'. done.
  - apply IH; try assumption.
    + intros k' Hk'. destruct (Hfresh k' ltac:(right; exact Hk')) as [Hn Hy].
      split; [|exact Hy]. rewrite lookup_insert_ne; [exact Hn|].
      intros Heq. apply (Hy (ToUpper_Replace k0)). symmetry. exact Heq.
    + intros k1 k2 H1 H2. apply Hinj; right; assumption.
Qed.

Lemma build_header_http_lookup (W : World) (req : Request) (k : string) (vs : list string) :
  range_ok (range_reqHeader W) ->
  (forall k', is_Some (Header req !! k') ->
     fixed_header req !! k' = None /\ forall y, k' <> "HTTP_" +:+ y) ->
  (forall k1 k2, is_Some (Header req !! k1) -> is_Some (Header req !! k2) ->
     ToUpper_Replace k1 = ToUpper_Replace k2 -> k1 = k2) ->
  Header req !! k = Some vs ->
  build_header W req !! ("HTTP_" +:+ ToUpper_Replace k) = Some vs.
Proof.
  intros Hr Hfresh Hinj Hk. rewrite build_header_fold.
  assert (Hin : forall k', k' ∈ range_reqHeader W (Header req) -> is_Some (Header req !! k')).
  { intros k' Hk'. destruct (range_ok_lookup _ _ _ Hr Hk') as (v & Hv). eauto. }
  apply add_http_vars_lookup.
  - rewrite (Hr (Header req)). apply NoDup_fst_map_to_list.
  - intros k' Hk'. apply Hfresh, Hin, Hk'.
  - intros k1 k2 H1 H2. apply Hinj; apply Hin; assumption.
  - rewrite (Hr (Header req)). apply list_elem_of_fmap. exists (k, vs).
    split; [reflexivity|]. apply elem_of_map_to_list. exact Hk.
  - exact Hk.
Qed.


Lemma two_headers_keys k : is_Some (two_headers !! k) -> k = "Accept" \/ k = "User-Agent".
Proof.
  unfold two_headers. intros [v Hv].
  destruct (decide (k = "Accept")) as [|H1]; [auto|].
  destruct (decide (k = "User-Agent")) as [|H2]; [auto|].
  rewrite !lookup_insert_ne, lookup_empty in Hv by done. discriminate.
Qed.


(** ** The passenger: the response *)

Lemma add_values k vals : forall h : gmap string (list string),
  fold_left (fun h vv => <[k := match h !! k with Some l => l | None => [] end ++ [vv]]> h)
            vals h
  = match vals with
    | [] => h
    | _ => <[k := match h !! k with Some l => l | None => [] end ++ vals]> h
    end.
Proof.
  induction vals as [|vv vals IH]; intros h; [reflexivity|].
  cbn [fold_left]. rewrite IH. destruct vals as [|vv' vals]; [reflexivity|].
  rewrite lookup_insert_eq, insert_insert_eq, <- app_assoc. reflexivity.
Qed.

Lemma copy_header_eq W res h k :
  copy_header W res h k
  = match res_Header res !! k with
    | Some (v :: vals) => <[CanonicalMIMEHeaderKey W k := v :: vals]> h
    | _ => delete (CanonicalMIMEHeaderKey W k) h
    end.
Proof.
  unfold copy_header. cbv zeta. rewrite add_values.
  destruct (res_Header res !! k) as [[|v vals]|]; try reflexivity.
  rewrite lookup_delete_eq. simpl. apply insert_delete_eq.
Qed.

Lemma copy_headers_keep W res keys K : forall h,
  (forall k, k ∈ keys -> CanonicalMIMEHeaderKey W k <> K) ->
  fold_left (copy_header W res) keys h !! K = h !! K.
Proof.
  induction keys as [|k keys IH]; intros h HK; [reflexivity|].
  cbn [fold_left]. rewrite IH by (intros k' Hk'; apply HK; right; exact Hk').
  rewrite copy_header_eq. specialize (HK k ltac:(left)).
  destruct (res_Header res !! k) as [[|v vals]|].
  - apply lookup_delete_ne. exact HK.
  - apply lookup_insert_ne. exact HK.
  - apply lookup_delete_ne. exact HK.
Qed.

Lemma copy_headers_lookup W res keys : forall h k vs,
  NoDup keys ->
  (forall k1 k2, k1 ∈ keys -> k2 ∈ keys ->
     CanonicalMIMEHeaderKey W k1 = CanonicalMIMEHeaderKey W k2 -> k1 = k2) ->
  k ∈ keys -> res_Header res !! k = Some vs ->
  fold_left (copy_header W res) keys h !! CanonicalMIMEHeaderKey W k
  = match vs with [] => None | _ => Some vs end.
Proof.
  induction keys as [|k0 keys IH]; intros h k vs Hnd Hinj Hin Hk.
  { apply elem_of_nil in Hin. done. }
  apply NoDup_cons in Hnd. destruct Hnd as [Hk0 Hnd].
  cbn [fold_left]. apply elem_of_cons in Hin. destruct Hin as [->|Hin].
  - rewrite copy_headers_keep.
    + rewrite copy_header_eq, Hk. destruct vs as [|v vals].
      * apply lookup_delete_eq.
      * apply lookup_insert_eq.
    + intros k' Hk' Heq.
      assert (k' = k0) by (apply Hinj; [right; exact Hk'|left|exact Heq]).
      subst k'. done.
  - apply IH; try assumption.
    intros k1 k2 H1 H2. apply Hinj; right; assumption.
Qed.

(** When the dial succeeds and [http.ReadResponse] returns a response,
    [ServeHTTP] returns: the body of the response is written after what was
    written before; each header of the response replaces the values that
    the response writer had under its canonical key (and removes them when
    the response has the key with no value); and a header of the response
    writer under a key that the response does not have stays as it was.
    This when no two keys of the response have the same canonical key. *)
Theorem ServeHTTP_copies_response (W : World) (p : Passenger) (w : ResponseWriter)
    (req : Request) peer (res : Response) :
  net_Dial W (Net p) (Addr p) = inr peer ->
  peer (frame_writes W (build_header W req) (Body req)) = inr res ->
  range_ok (range_resHeader W) ->
  (forall k1 k2, is_Some (res_Header res !! k1) -> is_Some (res_Header res !! k2) ->
     CanonicalMIMEHeaderKey W k1 = CanonicalMIMEHeaderKey W k2 -> k1 = k2) ->
  exists w', ServeHTTP W p w req = Ret w' /\
    w_written w' = w_written w ++ res_Body res /\
    (forall k vs, res_Header res !! k = Some vs ->
       w_Header w' !! CanonicalMIMEHeaderKey W k = match vs with [] => None | _ => Some vs end) /\
    (forall K, (forall k, is_Some (res_Header res !! k) -> CanonicalMIMEHeaderKey W k <> K) ->
       w_Header w' !! K = w_Header w !! K).
Proof.
  intros Hd Hp Hr Hinj.
  exists (mk_ResponseWriter
            (fold_left (copy_header W res) (range_resHeader W (res_Header res)) (w_Header w))
            (w_written w ++ res_Body res)).
  assert (Hin : forall k, k ∈ range_resHeader W (res_Header res) -> is_Some (res_Header res !! k)).
  { intros k Hk. destruct (range_ok_lookup _ _ _ Hr Hk) as (v & Hv). eauto. }
  split; [unfold ServeHTTP; rewrite Hd, Hp; reflexivity|].
  split; [reflexivity|]. split.
  - intros k vs Hk. simpl. apply copy_headers_lookup.
    + rewrite (Hr (res_Header res)). apply NoDup_fst_map_to_list.
    + intros k1 k2 H1 H2. apply Hinj; apply Hin; assumption.
    + rewrite (Hr (res_Header res)). apply list_elem_of_fmap. exists (k, vs).
      split; [reflexivity|]. apply elem_of_map_to_list. exact Hk.
    + exact Hk.
  - intros K HK. simpl. apply copy_headers_keep. intros k Hk. apply HK, Hin, Hk.
Qed.

Lemma ServeHTTP_copies_response_witness :
  exists w', ServeHTTP answering_World Passenger_test test_writer headers_request = Ret w' /\
    w_written w' = w_written test_writer ++ res_Body test_response /\
    (forall k vs, res_Header test_response !! k = Some vs ->
       w_Header w' !! CanonicalMIMEHeaderKey answering_World k
       = match vs with [] => None | _ => Some vs end) /\
    (forall K, (forall k, is_Some (res_Header test_response !! k) ->
                          CanonicalMIMEHeaderKey answering_World k <> K) ->
       w_Header w' !! K = w_Header test_writer !! K).
Proof.
  apply (ServeHTTP_copies_response answering_World Passenger_test test_writer headers_request
           (fun _ => inr test_response) test_response).
  - reflexivity.
  - reflexivity.
  - exact range_ok_keys_reversed.
  - intros k1 k2 _ _ H. exact H.
Defined.

(** ** The passenger and the listener together *)

Lemma add_http_vars_nonempty reqHeader keys : forall header,
  values_nonempty reqHeader ->
  (forall k, k ∈ keys -> is_Some (reqHeader !! k)) ->
  values_nonempty header ->
  values_nonempty (fold_left (add_http_var reqHeader) keys header).
Proof.
  induction keys as [|k keys IH]; intros header Hreq Hin Hh; [exact Hh|].
  cbn [fold_left]. apply IH; [exact Hreq|intros k' Hk'; apply Hin; right; exact Hk'|].
  unfold add_http_var. destruct (header !! k); [exact Hh|].
  destruct (Hin k ltac:(left)) as [v Hv]. rewrite Hv.
  intros k' vals. destruct (decide ("HTTP_" +:+ ToUpper_Replace k = k')) as [<-|Hne].
  - rewrite lookup_insert_eq. intros [= <-]. eapply Hreq, Hv.
  - rewrite lookup_insert_ne by exact Hne. apply Hh.
Qed.

Lemma fixed_header_nonempty req : values_nonempty (fixed_header req).
Proof.
  apply map_Forall_lookup. unfold fixed_header.
  destruct (decide (_ = "")); repeat (apply map_Forall_insert_2; [discriminate|]);
    apply map_Forall_empty.
Qed.

Lemma build_header_nonempty W req :
  range_ok (range_reqHeader W) -> values_nonempty (Header req) ->
  values_nonempty (build_header W req).
Proof.
  intros Hr Hreq. rewrite build_header_fold.
  apply add_http_vars_nonempty; [exact Hreq| |apply fixed_header_nonempty].
  intros k Hk. destruct (range_ok_lookup _ _ _ Hr Hk) as (v & Hv). eauto.
Qed.



(** ** Blocks on which no sum wraps around *)

Lemma index_in_range (b : list byte) (i : Z) :
  0 <= i < len b -> exists x, index b i = Ret x /\ b !! Z.to_nat i = Some x.
Proof.
  intros Hi. unfold index.
  destruct (b !! Z.to_nat i) as [x|] eqn:Hl; [eauto|].
  apply lookup_ge_None in Hl. unfold len in Hi. lia.
Qed.

Lemma slice_in_range (b : list byte) (lo hi : Z) :
  lo <= hi <= len b -> exists x, slice b lo hi = Ret x.
Proof.
  intros H. unfold slice.
  replace ((lo <=? hi) && (hi <=? len b)) with true; [eauto|].
  symmetry. apply andb_true_iff. split; apply Z.leb_le; lia.
Qed.

Lemma no_overflow_pair envbuf (i : Z) b0 b1 :
  no_overflow envbuf -> 0 <= i ->
  envbuf !! Z.to_nat i = Some b0 -> envbuf !! Z.to_nat (i + 1) = Some b1 ->
  LittleEndian_Uint16 b0 b1 + len envbuf < 65535.
Proof.
  intros Hno Hi H0 H1. unfold no_overflow in Hno.
  rewrite Forall_forall in Hno. apply (Hno (b0, b1)).
  apply (elem_of_lookup_zip_with_2 pair envbuf (tail envbuf) b0 b1 (b0, b1) (Z.to_nat i));
    [exact H0|].
  rewrite lookup_tail. replace (S (Z.to_nat i)) with (Z.to_nat (i + 1)) by lia. exact H1.
Qed.

Lemma scan_no_panic envbuf envsize : no_overflow envbuf ->
  forall fuel i st, 0 <= i <= len envbuf ->
    scan fuel envbuf envsize i st = NoFuel \/
    exists res, scan fuel envbuf envsize i st = Ret res.
Proof.
  intros Hno. induction fuel as [|fuel IH]; intros i st Hi; [left; reflexivity|].
  pose proof (len_nonneg envbuf) as Hn.
  rewrite scan_S.
  destruct (Z_le_dec (len envbuf) 1) as [Hsmall|Hbig].
  { (* fewer than two bytes: the loop breaks at once *)
    rewrite (uint16_small (len envbuf)) by lia. rewrite (uint16_small (i + 1)) by lia.
    rewrite geb_true by lia. eauto. }
  assert (Hlen : len envbuf < 65535).
  { destruct (index_in_range envbuf 0 ltac:(lia)) as (x0 & _ & H0).
    destruct (index_in_range envbuf 1 ltac:(lia)) as (x1 & _ & H1).
    pose proof (no_overflow_pair envbuf 0 x0 x1 Hno ltac:(lia) H0 H1).
    pose proof (Uint16_range x0 x1). lia. }
  rewrite (uint16_small (len envbuf)) by lia. rewrite (uint16_small (i + 1)) by lia.
  destruct (i + 1 >=? len envbuf) eqn:C1; [eauto|]. apply geb_true_inv in C1.
  destruct (index_in_range envbuf i ltac:(lia)) as (b0 & I0 & L0).
  destruct (index_in_range envbuf (i + 1) ltac:(lia)) as (b1 & I1 & L1).
  rewrite I0, bind_Ret, I1, bind_Ret. cbv zeta.
  pose proof (no_overflow_pair envbuf i b0 b1 Hno ltac:(lia) L0 L1) as Hkl.
  pose proof (Uint16_range b0 b1) as Rkl.
  set (kl := LittleEndian_Uint16 b0 b1) in *.
  rewrite (uint16_small (i + 2)) by lia. rewrite (uint16_small (i + 2 + kl)) by lia.
  destruct (i + 2 + kl >? len envbuf) eqn:C2; [eauto|].
  rewrite Z.gtb_ltb in C2. apply Z.ltb_ge in C2.
  destruct (slice_in_range envbuf (i + 2) (i + 2 + kl) ltac:(lia)) as (k & S2).
  rewrite S2, bind_Ret.
  rewrite (uint16_small (i + 2 + kl + 1)) by lia.
  destruct (i + 2 + kl + 1 >=? len envbuf) eqn:C3; [eauto|]. apply geb_true_inv in C3.
  destruct (index_in_range envbuf (i + 2 + kl) ltac:(lia)) as (c0 & I3 & L3).
  destruct (index_in_range envbuf (i + 2 + kl + 1) ltac:(lia)) as (c1 & I4 & L4).
  rewrite I3, bind_Ret, I4, bind_Ret.
  pose proof (no_overflow_pair envbuf (i + 2 + kl) c0 c1 Hno ltac:(lia) L3 L4) as Hvl.
  pose proof (Uint16_range c0 c1) as Rvl.
  set (vl := LittleEndian_Uint16 c0 c1) in *.
  rewrite (uint16_small (i + 2 + kl + 2)) by lia.
  rewrite (uint16_small (i + 2 + kl + 2 + vl)) by lia.
  destruct (i + 2 + kl + 2 + vl >? len envbuf) eqn:C4; [eauto|].
  rewrite Z.gtb_ltb in C4. apply Z.ltb_ge in C4.
  destruct (slice_in_range envbuf (i + 2 + kl + 2) (i + 2 + kl + 2 + vl) ltac:(lia)) as (v & S5).
  rewrite S5, bind_Ret.
  destruct (i + 2 + kl + 2 + vl >=? envsize); [eauto|].
  apply IH. lia.
Qed.



(** ** The content type through the passenger and the listener *)



(** ** The earlier revision: the body *)

Lemma Rev1_header_rounds_cl env keys : forall buf cl,
  ("CONTENT_LENGTH" ∈ keys -> exists v0 vals, env !! "CONTENT_LENGTH" = Some (v0 :: vals)) ->
  exists buf',
    Rev1.header_rounds env (buf, cl) keys
    = Ret (buf', if decide ("CONTENT_LENGTH" ∈ keys) then content_length env else cl).
Proof.
  induction keys as [|i keys IH]; intros buf cl Hcl.
  - exists buf. cbn [Rev1.header_rounds].
    rewrite (decide_False (P := "CONTENT_LENGTH" ∈ [])); [reflexivity|]. apply not_elem_of_nil.
  - cbn [Rev1.header_rounds]. unfold Rev1.header_round at 1.
    destruct (decide (i = "CONTENT_LENGTH")) as [->|Hi].
    + destruct (Hcl ltac:(left)) as (v0 & vals & Hv). rewrite Hv. rewrite bind_Ret.
      destruct (IH (if strconv_ParseInt v0 >? 0
                    then Fprintf buf ("Content-Length: " +:+ FormatInt (strconv_ParseInt v0) +:+ CRLF)
                    else buf) (strconv_ParseInt v0)) as (buf' & ->).
      { intros _. eauto. }
      exists buf'. rewrite (decide_True (P := "CONTENT_LENGTH" ∈ "CONTENT_LENGTH" :: keys)) by left.
      destruct (decide ("CONTENT_LENGTH" ∈ keys)); [reflexivity|].
      unfold content_length. rewrite Hv. reflexivity.
    + rewrite bind_Ret.
      destruct (IH (fold_left
                      (fun buf v => Fprintf buf
                         (match Rev1.headerMappings !! i with Some h => h | None => i end
                          +:+ ": " +:+ v +:+ CRLF))
                      (match env !! i with Some vals => vals | None => [] end) buf) cl)
        as (buf' & ->).
      { intros Hin. apply Hcl. right. exact Hin. }
      exists buf'. destruct (decide ("CONTENT_LENGTH" ∈ keys)) as [Hin|Hnin].
      * rewrite decide_True by (right; exact Hin). reflexivity.
      * rewrite decide_False; [reflexivity|].
        intros H. apply elem_of_cons in H. destruct H as [H|H]; [congruence|done].
Qed.

Lemma Rev1_Accept_frame (r : range_order) p m1 m2 recs (rest : list byte) :
  len (block_of recs) <= 65535 ->
  head_in_first_chunk p ->
  concat p = frame_of m1 m2 recs ++ rest ->
  exists fd, concat (pending fd) = rest /\ closed fd = false /\
    Rev1.Accept r (mk_net_Conn p false) =
      let st := record_vars recs no_vars in
      if decide (reqProtocol st = "") then Ret (inl (invalid_protocol, net_Close fd)) else
      '(buf, cl) ← Rev1.header_rounds (c_env st)
                     (Fprintf [] (reqMethod st +:+ " " +:+ reqURI st +:+ " " +:+ "HTTP/1.0"
                                  +:+ CRLF), 0)
                     (r (c_env st));
      let '(buf, fd) := if cl >? 0 then Rev1.io_CopyN (buf ++ bytes CRLF) fd cl
                        else (buf ++ bytes CRLF, fd) in
      Ret (inr (Rev1.mk_Conn (c_env st) buf fd)).
Proof.
  intros Hlen Hhead Hcat.
  pose proof (len_nonneg (block_of recs)) as Hn.
  set (lo := Z_byte (len (block_of recs))).
  set (hi := Z_byte (Z.shiftr (len (block_of recs)) 8)).
  assert (Hsz : LittleEndian_Uint16 lo hi = len (block_of recs)).
  { apply Uint16_PutUint16. lia. }
  destruct (read_head_frame p m1 lo hi m2 (block_of recs ++ rest) Hhead) as (p1 & Hrh & Hp1).
  { rewrite Hcat. unfold frame_of, LittleEndian_PutUint16. list_assoc. }
  destruct (io_ReadFull_enough (Z.to_nat (len (block_of recs))) p1 (block_of recs) rest Hp1)
    as (p2 & Hrf & Hp2).
  { unfold len. lia. }
  exists (mk_net_Conn p2 false). split; [exact Hp2|]. split; [reflexivity|].
  unfold Rev1.Accept. rewrite Hrh.
  change (index [m1; lo; hi; m2] 1) with (Ret lo).
  change (index [m1; lo; hi; m2] 2) with (Ret hi). rewrite !bind_Ret.
  cbv zeta. rewrite Hsz, Hrf.
  rewrite scan_whole_block by exact Hlen. rewrite bind_Ret.
  reflexivity.
Qed.



(** ** The modifiers of the header *)

(** The goroutine reads the size of the block from the bytes 1 and 2 of the
    header and nothing from the bytes 0 and 3: two streams that differ in
    their modifiers only are decoded to the same result, so a packet with a
    modifier other than 0 is taken for a request all the same. *)
Theorem modifiers_are_ignored (r : range_order) (m1 m2 m1' m2' lo hi : byte)
    (tl : list byte) (p : list (list byte)) :
  Accept_go r (Accept (mk_net_Conn ((m1 :: lo :: hi :: m2 :: tl) :: p) false))
  = Accept_go r (Accept (mk_net_Conn ((m1' :: lo :: hi :: m2' :: tl) :: p) false)).
Proof. reflexivity. Qed.
